(** * Secret Manager secret service: a shallow embedding

    Source: pkg/plugins/secret/secret_manager/secret_manager.go

    The service keeps a resolution cache (a Go [map[string]string]) and talks
    to the provider through the [SecretManagerClient] interface.  Go pointers
    are options, a nil dereference is a panic, Go's [(value, error)] results
    are a two-constructor [result], and every provider call is recorded in a
    trace so that "no backend call" is a statement about that trace. *)

From Stdlib Require Import Strings.String Strings.Ascii Strings.Byte List.
From Stdlib Require Import Decimal DecimalFacts DecimalNat DecimalString.
From stdpp Require Import gmap strings list.

Local Open Scope string_scope.

(** ** Strings *)

(** [occurs c s]: the byte [c] appears in [s]. *)
Fixpoint occurs (c : ascii) (s : string) : bool :=
  match s with
  | EmptyString => false
  | String a rest => if Ascii.eqb a c then true else occurs c rest
  end.

(** Go's [strings.Split(s, sep)] for a one-byte separator: the substrings
    between the separators, [[s]] when [sep] does not occur, never an empty
    slice. *)
Fixpoint Split (s : string) (sep : ascii) : list string :=
  match s with
  | EmptyString => [EmptyString]
  | String a rest =>
      if Ascii.eqb a sep then EmptyString :: Split rest sep
      else match Split rest sep with
           | [] => [String a EmptyString]
           | seg :: segs => String a seg :: segs
           end
  end.

(** ** Error values *)

Module grpcCodes.
(** google.golang.org/grpc/codes *)
Inductive Code :=
| OK | Canceled | Unknown | InvalidArgument | DeadlineExceeded | NotFound
| AlreadyExists | PermissionDenied | ResourceExhausted | FailedPrecondition
| Aborted | OutOfRange | Unimplemented | Internal | Unavailable | DataLoss
| Unauthenticated.
End grpcCodes.

Module codes.
(** Modelled from the spec: the error kinds of pkg/plugins/errors/codes,
    declared in another package; the spec's taxonomy names these three. *)
Inductive Code := InvalidArgument | NotFound | Internal.
End codes.

Module secret.
(** Modelled from the spec: the structs of pkg/plugins/secret, declared in
    another package, with the fields of the spec's exposed contract.
    [Secret_] is the pointer field [Secret] of a version. *)
Record Secret := { Name : string }.
Record SecretVersion := { Secret_ : option Secret; Version : string }.
Record SecretPutResponse := { PutSecretVersion : SecretVersion }.
Record SecretAccessResponse :=
  { AccessSecretVersion_ : SecretVersion; Value : list byte }.
End secret.

(** The structured context handed to [errors.ErrorsWithScope]. *)
Inductive ScopeArg :=
| ArgSecret (sec : option secret.Secret)
| ArgVersion (sv : option secret.SecretVersion).

(** Go [error] values that occur in this package. *)
Inductive error :=
| Errorf (msg : string)                               (* fmt.Errorf *)
| StatusError (c : grpcCodes.Code) (msg : string)     (* status.Error *)
| IteratorDone                                        (* iterator.Done *)
| PluginError (scope : string) (arg : ScopeArg)
              (code : codes.Code) (msg : string) (cause : error).

(** Modelled from the spec: [errors.ErrorsWithScope] of pkg/plugins/errors,
    declared in another package.  It wraps a cause with the originating
    operation name, the structured context and an error kind. *)
Definition ErrorsWithScope (scope : string) (arg : ScopeArg)
  : codes.Code -> string -> error -> error :=
  fun code msg cause => PluginError scope arg code msg cause.

(** The kind a caller sees on an error. *)
Definition Code_of (e : error) : option codes.Code :=
  match e with
  | PluginError _ _ c _ _ => Some c
  | _ => None
  end.

Definition Cause_of (e : error) : option error :=
  match e with
  | PluginError _ _ _ _ c => Some c
  | _ => None
  end.

(** Go's [(value, error)] return convention: a value with a nil error, or
    an error.  An answer that is nil in both places is not a value of this
    type. *)
Inductive result (A : Type) :=
| Ok (a : A)
| Err (e : error).
Arguments Ok {A} a.
Arguments Err {A} e.

(** ** The provider interface *)

Module secretmanagerpb.
Record Secret := { Name : string }.
Record SecretPayload := { Data : list byte }.
Record ListSecretsRequest := { ListParent : string; Filter : string }.
Record AddSecretVersionRequest :=
  { AddParent : string; AddPayload : option SecretPayload }.
Record SecretVersion := { VersionName : string }.
Record AccessSecretVersionRequest := { AccessName : string }.
Record AccessSecretVersionResponse :=
  { ResponseName : string; Payload : option SecretPayload }.

(** The generated getter, safe on a nil payload. *)
Definition GetData (p : option SecretPayload) : list byte :=
  match p with
  | Some q => Data q
  | None => []
  end.
End secretmanagerpb.

(** What [ListSecrets] hands back: a finite sequence of containers, or a
    failure reported by the first [Next]. *)
Inductive SecretIterator :=
| IterItems (items : list secretmanagerpb.Secret)
| IterFail (e : error).

Definition Next (it : SecretIterator) : result secretmanagerpb.Secret :=
  match it with
  | IterItems [] => Err IteratorDone
  | IterItems (x :: _) => Ok x
  | IterFail e => Err e
  end.

(** Modelled from the spec: ifaces_gcloud_secret.SecretManagerClient,
    declared in another package, with the three capabilities the service
    consumes: list containers by label filter, create a version under a
    container, fetch a version's payload.  [backend] is the provider's
    state; listing and reading do not change it. *)
Record SecretManagerClient := {
  backend : Type;
  ListSecrets :
    secretmanagerpb.ListSecretsRequest -> backend -> SecretIterator;
  AddSecretVersion :
    secretmanagerpb.AddSecretVersionRequest -> backend ->
    result secretmanagerpb.SecretVersion * backend;
  AccessSecretVersion :
    secretmanagerpb.AccessSecretVersionRequest -> backend ->
    result secretmanagerpb.AccessSecretVersionResponse
}.

(** One entry per provider call. *)
Inductive Call :=
| CallListSecrets (req : secretmanagerpb.ListSecretsRequest)
| CallAddSecretVersion (req : secretmanagerpb.AddSecretVersionRequest)
| CallAccessSecretVersion (req : secretmanagerpb.AccessSecretVersionRequest).

Definition is_list_call (c : Call) : bool :=
  match c with
  | CallListSecrets _ => true
  | _ => false
  end.

(** ** The service *)

Record secretManagerSecretService := {
  projectId : string;
  stackName : string;
  cache : gmap string string
}.

Definition set_cache (s : secretManagerSecretService) (m : gmap string string)
  : secretManagerSecretService :=
  {| projectId := projectId s; stackName := stackName s; cache := m |}.

(** What a call ends in: a normal return or a run-time panic. *)
Inductive outcome (A : Type) :=
| Ret (a : A)
| Panic (msg : string).
Arguments Ret {A} a.
Arguments Panic {A} msg.

Section Service.
Variable client : SecretManagerClient.

(** The service, the provider behind its client, and the calls made. *)
Record World := {
  self : secretManagerSecretService;
  remote : backend client;
  trace : list Call
}.

Definition M (A : Type) : Type := World -> outcome A * World.

Definition ret {A} (a : A) : M A := fun w => (Ret a, w).

Definition bind {A B} (m : M A) (k : A -> M B) : M B :=
  fun w =>
    match m w with
    | (Ret a, w') => k a w'
    | (Panic msg, w') => (Panic msg, w')
    end.

Definition panic {A} (msg : string) : M A := fun w => (Panic msg, w).

Notation "x <- m ;; k" := (bind m (fun x => k))
  (at level 100, m at next level, right associativity).

(** Dereference of a Go pointer. *)
Definition deref {A} (p : option A) : M A :=
  match p with
  | Some a => ret a
  | None => panic "invalid memory address or nil pointer dereference"
  end.

(** Indexing of a Go slice. *)
Definition index {A} (l : list A) (i : nat) : M A :=
  match l !! i with
  | Some a => ret a
  | None => panic "index out of range"
  end.

Definition get_self : M secretManagerSecretService :=
  fun w => (Ret (self w), w).

Definition cache_store (k v : string) : M unit :=
  fun w =>
    (Ret tt,
     {| self := set_cache (self w) (<[k := v]> (cache (self w)));
        remote := remote w; trace := trace w |}).

Definition do_ListSecrets (req : secretmanagerpb.ListSecretsRequest)
  : M SecretIterator :=
  fun w =>
    (Ret (ListSecrets client req (remote w)),
     {| self := self w; remote := remote w;
        trace := trace w ++ [CallListSecrets req] |}).

Definition do_AddSecretVersion (req : secretmanagerpb.AddSecretVersionRequest)
  : M (result secretmanagerpb.SecretVersion) :=
  fun w =>
    let '(r, b) := AddSecretVersion client req (remote w) in
    (Ret r,
     {| self := self w; remote := b;
        trace := trace w ++ [CallAddSecretVersion req] |}).

Definition do_AccessSecretVersion
    (req : secretmanagerpb.AccessSecretVersionRequest)
  : M (result secretmanagerpb.AccessSecretVersionResponse) :=
  fun w =>
    (Ret (AccessSecretVersion client req (remote w)),
     {| self := self w; remote := remote w;
        trace := trace w ++ [CallAccessSecretVersion req] |}).

Definition validateNewSecret (sec : option secret.Secret) (val : list byte)
  : option error :=
  match sec with
  | None => Some (Errorf "provide non-nil secret")
  | Some sec' =>
      if Nat.eqb (String.length (secret.Name sec')) 0
      then Some (Errorf "provide non-blank secret name")
      else if Nat.eqb (List.length val) 0
      then Some (Errorf "provide non-blank secret value")
      else None
  end.

Definition getParentName (s : secretManagerSecretService) : string :=
  "projects/" +:+ projectId s.

(** ensure a secret container exists for storing secret versions *)
Definition getSecret (sec : option secret.Secret)
  : M (result secretmanagerpb.Secret) :=
  s <- get_self ;;
  sec' <- deref sec ;;
  iter <- do_ListSecrets
    {| secretmanagerpb.ListParent := getParentName s;
       secretmanagerpb.Filter :=
         "labels.x-nitric-name=" +:+ secret.Name sec' +:+
         " AND labels.x-nitric-stack=" +:+ stackName s |} ;;
  match Next iter with
  | Err IteratorDone =>
      ret (Err (StatusError grpcCodes.NotFound "secret not found"))
  | Err err => ret (Err err)
  | Ok result =>
      _ <- cache_store (secret.Name sec') (secretmanagerpb.Name result) ;;
      ret (Ok result)
  end.

Definition buildSecretVersionName (sv : option secret.SecretVersion)
  : M (result string) :=
  sv' <- deref sv ;;
  sec <- deref (secret.Secret_ sv') ;;
  if Nat.eqb (String.length (secret.Name sec)) 0
  then ret (Err (Errorf "provide non-blank name"))
  else if Nat.eqb (String.length (secret.Version sv')) 0
  then ret (Err (Errorf "provide non-blank version"))
  else
    s <- get_self ;;
    match cache s !! secret.Name sec with
    | Some parent =>
        ret (Ok (parent +:+ "/versions/" +:+ secret.Version sv'))
    | None =>
        r <- getSecret (secret.Secret_ sv') ;;
        match r with
        | Err err => ret (Err err)
        | Ok realSec =>
            ret (Ok (secretmanagerpb.Name realSec +:+ "/versions/" +:+
                     secret.Version sv'))
        end
    end.

(** Put - Creates a new secret if one doesn't exist, or just adds a new
    secret version *)
Definition Put (sec : option secret.Secret) (val : list byte)
  : M (result secret.SecretPutResponse) :=
  let newErr :=
    ErrorsWithScope "SecretManagerSecretService.Put" (ArgSecret sec) in
  match validateNewSecret sec val with
  | Some err => ret (Err (newErr codes.InvalidArgument "invalid secret" err))
  | None =>
      (* ensure the secret container exists... *)
      r <- getSecret sec ;;
      match r with
      | Err err =>
          ret (Err (newErr codes.Internal
                      "error ensuring secret container exists" err))
      | Ok parentSec =>
          v <- do_AddSecretVersion
            {| secretmanagerpb.AddParent := secretmanagerpb.Name parentSec;
               secretmanagerpb.AddPayload :=
                 Some {| secretmanagerpb.Data := val |} |} ;;
          match v with
          | Err err =>
              ret (Err (newErr codes.Internal
                          "failed to add new secret version" err))
          | Ok verResult =>
              let versionStringParts :=
                Split (secretmanagerpb.VersionName verResult) "/" in
              version <- index versionStringParts
                (List.length versionStringParts - 1) ;;
              sec' <- deref sec ;;
              ret (Ok {| secret.PutSecretVersion :=
                           {| secret.Secret_ :=
                                Some {| secret.Name := secret.Name sec' |};
                              secret.Version := version |} |})
          end
      end
  end.

(** Get - Retrieves a secret given a name and a version *)
Definition Access (sv : option secret.SecretVersion)
  : M (result secret.SecretAccessResponse) :=
  let newErr :=
    ErrorsWithScope "SecretManagerSecretService.Access" (ArgVersion sv) in
  r <- buildSecretVersionName sv ;;
  match r with
  | Err err =>
      ret (Err (newErr codes.InvalidArgument "invalid secret version" err))
  | Ok fullName =>
      res <- do_AccessSecretVersion
        {| secretmanagerpb.AccessName := fullName |} ;;
      match res with
      | Err err =>
          ret (Err (newErr codes.Internal
                      "failed to access secret version" err))
      | Ok result =>
          sv' <- deref sv ;;
          ret (Ok {| secret.AccessSecretVersion_ := sv';
                     secret.Value :=
                       secretmanagerpb.GetData
                         (secretmanagerpb.Payload result) |})
      end
  end.

End Service.


Arguments self {client} w.
Arguments remote {client} w.
Arguments trace {client} w.

(** The spec's wording for the version identifier: the substring after the
    last separator, the whole string when there is none. *)
Fixpoint trailing_segment (sep : ascii) (s : string) : string :=
  match s with
  | EmptyString => EmptyString
  | String a rest =>
      if occurs sep rest then trailing_segment sep rest
      else if Ascii.eqb a sep then rest
      else s
  end.

(** ** Requests, responses and worlds the statements speak of *)

(** The listing request [getSecret] sends for a logical name. *)
Definition lookup_request (s : secretManagerSecretService) (name : string)
  : secretmanagerpb.ListSecretsRequest :=
  {| secretmanagerpb.ListParent := getParentName s;
     secretmanagerpb.Filter :=
       "labels.x-nitric-name=" +:+ name +:+
       " AND labels.x-nitric-stack=" +:+ stackName s |}.

(** The world once a call has been logged. *)
Definition logged {client} (w : World client) (c : Call) : World client :=
  {| self := self w; remote := remote w; trace := trace w ++ [c] |}.

(** The world once a name has been cached. *)
Definition cached {client} (w : World client) (k v : string) : World client :=
  {| self := set_cache (self w) (<[k := v]> (cache (self w)));
     remote := remote w; trace := trace w |}.

Ltac unfold_service :=
  unfold Put, Access, buildSecretVersionName, getSecret, do_ListSecrets,
    do_AddSecretVersion, do_AccessSecretVersion, cache_store, get_self,
    deref, index, bind, ret, panic, logged, cached, lookup_request.

(** Closes the bounds on a concrete list of calls. *)
Ltac by_calls := repeat split; cbn; solve [lia | reflexivity].

(** The wrappers of the two operations. *)
Definition PutErr (osec : option secret.Secret) :=
  ErrorsWithScope "SecretManagerSecretService.Put" (ArgSecret osec).
Definition AccessErr (sv : option secret.SecretVersion) :=
  ErrorsWithScope "SecretManagerSecretService.Access" (ArgVersion sv).

(** The request [Put] sends to append a version. *)
Definition add_request (parent : secretmanagerpb.Secret) (val : list byte)
  : secretmanagerpb.AddSecretVersionRequest :=
  {| secretmanagerpb.AddParent := secretmanagerpb.Name parent;
     secretmanagerpb.AddPayload := Some {| secretmanagerpb.Data := val |} |}.

(** The answer of a successful [Put]. *)
Definition put_response (name version : string) : secret.SecretPutResponse :=
  {| secret.PutSecretVersion :=
       {| secret.Secret_ := Some {| secret.Name := name |};
          secret.Version := version |} |}.

(** ** An in-memory provider

    A store of labelled containers, each with its list of version payloads;
    version identifiers are the decimal positions 1, 2, ... and resource
    names follow the provider's [<container>/versions/<id>] convention. *)

Module mem.

Record Container := {
  name : string;
  project : string;
  nitricName : string;
  nitricStack : string;
  versions : list (list byte)
}.

Definition Store := list Container.

Definition version_id (n : nat) : string :=
  NilZero.string_of_uint (Nat.to_uint n).

Definition version_name (parent : string) (n : nat) : string :=
  parent +:+ "/versions/" +:+ version_id n.

Definition matches (req : secretmanagerpb.ListSecretsRequest) (c : Container)
  : bool :=
  String.eqb (secretmanagerpb.ListParent req) ("projects/" +:+ project c) &&
  String.eqb (secretmanagerpb.Filter req)
    ("labels.x-nitric-name=" +:+ nitricName c +:+
     " AND labels.x-nitric-stack=" +:+ nitricStack c).

Definition list_secrets (req : secretmanagerpb.ListSecretsRequest)
    (st : Store) : SecretIterator :=
  IterItems
    (List.map (fun c => {| secretmanagerpb.Name := name c |})
       (List.filter (matches req) st)).

Definition push (c : Container) (data : list byte) : Container :=
  {| name := name c; project := project c; nitricName := nitricName c;
     nitricStack := nitricStack c; versions := versions c ++ [data] |}.

(** Append to the first container called [parent]; the new version's
    position. *)
Fixpoint add_version (parent : string) (data : list byte) (st : Store)
  : option (nat * Store) :=
  match st with
  | [] => None
  | c :: rest =>
      if String.eqb (name c) parent
      then Some (S (length (versions c)), push c data :: rest)
      else match add_version parent data rest with
           | Some (n, rest') => Some (n, c :: rest')
           | None => None
           end
  end.

Definition add_secret_version (req : secretmanagerpb.AddSecretVersionRequest)
    (st : Store) : result secretmanagerpb.SecretVersion * Store :=
  match add_version (secretmanagerpb.AddParent req)
          (secretmanagerpb.GetData (secretmanagerpb.AddPayload req)) st with
  | Some (n, st') =>
      (Ok {| secretmanagerpb.VersionName :=
               version_name (secretmanagerpb.AddParent req) n |}, st')
  | None => (Err (StatusError grpcCodes.NotFound "secret not found"), st)
  end.

(** The payload stored under the resource name [full], looking at the
    versions [vs] of [parent] from position [S i] on. *)
Fixpoint find_version (full parent : string) (i : nat)
    (vs : list (list byte)) : option (list byte) :=
  match vs with
  | [] => None
  | v :: rest =>
      if String.eqb full (version_name parent (S i)) then Some v
      else find_version full parent (S i) rest
  end.

Fixpoint access_version (full : string) (st : Store) : option (list byte) :=
  match st with
  | [] => None
  | c :: rest =>
      match find_version full (name c) 0 (versions c) with
      | Some v => Some v
      | None => access_version full rest
      end
  end.

Definition access_secret_version
    (req : secretmanagerpb.AccessSecretVersionRequest) (st : Store)
  : result secretmanagerpb.AccessSecretVersionResponse :=
  match access_version (secretmanagerpb.AccessName req) st with
  | Some v =>
      Ok {| secretmanagerpb.ResponseName := secretmanagerpb.AccessName req;
            secretmanagerpb.Payload :=
              Some {| secretmanagerpb.Data := v |} |}
  | None => Err (StatusError grpcCodes.NotFound "secret version not found")
  end.

Definition client : SecretManagerClient :=
  {| backend := Store;
     ListSecrets := list_secrets;
     AddSecretVersion := add_secret_version;
     AccessSecretVersion := access_secret_version |}.

(** A service over this provider with an empty cache. *)
Definition fresh (projectId stackName : string) (st : Store) : World client :=
  Build_World client
    {| projectId := projectId; stackName := stackName; cache := ∅ |} st [].

End mem.

(** ** The addressing contract of a provider

    A created version is named [<parent>/versions/<id>] with a non-empty
    identifier free of [/], and reading that name back yields the payload
    that was written. *)
Record Addressed (client : SecretManagerClient) : Prop := {
  version_named :
    forall req b v b',
      AddSecretVersion client req b = (Ok v, b') ->
      exists id,
        secretmanagerpb.VersionName v =
          secretmanagerpb.AddParent req +:+ "/versions/" +:+ id /\
        id <> EmptyString /\ occurs "/" id = false;
  read_after_write :
    forall req b v b',
      AddSecretVersion client req b = (Ok v, b') ->
      exists resp,
        AccessSecretVersion client
          {| secretmanagerpb.AccessName := secretmanagerpb.VersionName v |}
          b' = Ok resp /\
        secretmanagerpb.GetData (secretmanagerpb.Payload resp) =
        secretmanagerpb.GetData (secretmanagerpb.AddPayload req)
}.

(** ** Sequences of operations on one service instance *)

Inductive Op :=
| OpPut (sec : option secret.Secret) (val : list byte)
| OpAccess (sv : option secret.SecretVersion).

(** The secret an operation resolves. *)
Definition target (op : Op) : option secret.Secret :=
  match op with
  | OpPut sec _ => sec
  | OpAccess sv =>
      match sv with
      | Some v => secret.Secret_ v
      | None => None
      end
  end.

Definition step (client : SecretManagerClient) (op : Op) (w : World client)
  : World client :=
  match op with
  | OpPut sec val => snd (Put client sec val w)
  | OpAccess sv => snd (Access client sv w)
  end.

Definition run (client : SecretManagerClient) (ops : list Op)
    (w : World client) : World client :=
  fold_left (fun w op => step client op w) ops w.

(** [sv] or [sv.Secret] is a nil pointer. *)
Definition nil_version (sv : option secret.SecretVersion) : bool :=
  match sv with
  | None => true
  | Some v =>
      match secret.Secret_ v with
      | None => true
      | Some _ => false
      end
  end.

(** How many listings a trace holds. *)
Definition list_calls (t : list Call) : nat :=
  length (List.filter is_list_call t).

(** [t] is what follows the last [sep] of [s], all of [s] when [s] has no
    [sep]. *)
Definition is_trailing_segment (sep : ascii) (s t : string) : Prop :=
  occurs sep t = false /\
  ((occurs sep s = false /\ s = t) \/ exists p, s = p +:+ String sep t).

(** The version a caller names once it holds a [Put] response. *)
Definition version_of (name : string) (resp : secret.SecretPutResponse)
  : secret.SecretVersion :=
  {| secret.Secret_ := Some {| secret.Name := name |};
     secret.Version := secret.Version (secret.PutSecretVersion resp) |}.

(** Whether an operation, started in [w], gets as far as asking the
    provider to resolve its secret. *)
Definition resolves {client} (op : Op) (w : World client) : bool :=
  match op with
  | OpPut sec val =>
      match validateNewSecret sec val with
      | None => true
      | Some _ => false
      end
  | OpAccess sv =>
      match sv with
      | Some {| secret.Secret_ := Some sec; secret.Version := ver |} =>
          negb (Nat.eqb (String.length (secret.Name sec)) 0) &&
          negb (Nat.eqb (String.length ver) 0) &&
          match cache (self w) !! secret.Name sec with
          | Some _ => false
          | None => true
          end
      | _ => false
      end
  end.

(** ** A concrete deployment used in the examples *)

Module demo.

Definition dbpass : secret.Secret := {| secret.Name := "db-pass" |}.

Definition s3cr3t : list byte := list_byte_of_string "s3cr3t".

Definition container : mem.Container :=
  {| mem.name := "projects/p/secrets/s1"; mem.project := "p";
     mem.nitricName := "db-pass"; mem.nitricStack := "dev";
     mem.versions := [] |}.

(** A fresh service over a store holding the container of [db-pass]. *)
Definition provisioned : World mem.client := mem.fresh "p" "dev" [container].

(** A fresh service over an empty store. *)
Definition unprovisioned : World mem.client := mem.fresh "p" "dev" [].

(** The world after one [Put] on the provisioned store. *)
Definition after_put : World mem.client :=
  snd (Put mem.client (Some dbpass) s3cr3t provisioned).

End demo.

(** ** Vocabulary of the further properties *)

Definition is_add_call (c : Call) : bool :=
  match c with
  | CallAddSecretVersion _ => true
  | _ => false
  end.

Definition is_access_call (c : Call) : bool :=
  match c with
  | CallAccessSecretVersion _ => true
  | _ => false
  end.

(** The same world with another cache. *)
Definition with_cache {client} (w : World client) (m : gmap string string)
  : World client :=
  {| self := set_cache (self w) m; remote := remote w; trace := trace w |}.

(** The version request [Access] sends for a container reference. *)
Definition access_request (parent ver : string)
  : secretmanagerpb.AccessSecretVersionRequest :=
  {| secretmanagerpb.AccessName := parent +:+ "/versions/" +:+ ver |}.

(** A well-formed version of a secret. *)
Definition a_version (sec : secret.Secret) (ver : string)
  : option secret.SecretVersion :=
  Some {| secret.Secret_ := Some sec; secret.Version := ver |}.

(** What a provider keeps while versions are added, on the states [good]
    singles out: the listings stay as they are, a version that could be
    read can still be read, and a new version gets a name under which
    nothing could be read before. *)
Record Durable (client : SecretManagerClient)
    (good : backend client -> Prop) : Prop := {
  good_kept :
    forall req b r b',
      good b -> AddSecretVersion client req b = (r, b') -> good b';
  listing_stable :
    forall req b r b' lreq,
      AddSecretVersion client req b = (r, b') ->
      ListSecrets client lreq b' = ListSecrets client lreq b;
  version_kept :
    forall req b r b' areq x,
      good b -> AddSecretVersion client req b = (r, b') ->
      AccessSecretVersion client areq b = Ok x ->
      AccessSecretVersion client areq b' = Ok x;
  version_fresh :
    forall req b v b',
      good b -> AddSecretVersion client req b = (Ok v, b') ->
      exists e,
        AccessSecretVersion client
          {| secretmanagerpb.AccessName := secretmanagerpb.VersionName v |}
          b = Err e
}.

(** The containers of a store have distinct resource names. *)
Definition unique_names (st : mem.Store) : Prop :=
  NoDup (List.map mem.name st).

(** ** Providers that fail *)

Module faulty.

Definition unavailable : error :=
  StatusError grpcCodes.Unavailable "connection refused".

Definition denied : error :=
  StatusError grpcCodes.PermissionDenied "permission denied".

(** A provider that cannot be reached. *)
Definition offline : SecretManagerClient :=
  {| backend := unit;
     ListSecrets := fun _ _ => IterFail unavailable;
     AddSecretVersion := fun _ b => (Err unavailable, b);
     AccessSecretVersion := fun _ _ => Err unavailable |}.

(** A provider that lists and reads like [c] but refuses every write. *)
Definition read_only (c : SecretManagerClient) : SecretManagerClient :=
  {| backend := backend c;
     ListSecrets := ListSecrets c;
     AddSecretVersion := fun _ b => (Err denied, b);
     AccessSecretVersion := AccessSecretVersion c |}.

(** A service with an empty cache over the unreachable provider. *)
Definition offline_world : World offline :=
  Build_World offline
    {| projectId := "p"; stackName := "dev"; cache := ∅ |} tt [].

(** A service with an empty cache over the write-protected store that holds
    the container of [db-pass]. *)
Definition protected_world : World (read_only mem.client) :=
  Build_World (read_only mem.client)
    {| projectId := "p"; stackName := "dev"; cache := ∅ |}
    [demo.container] [].

(** A provider whose listing moves: it lists container [A] until the first
    write and container [B] from then on.  Its state counts the writes. *)
Definition moving : SecretManagerClient :=
  {| backend := nat;
     ListSecrets := fun _ n =>
       IterItems
         [{| secretmanagerpb.Name :=
               if Nat.eqb n 0 then "projects/p/secrets/A"
               else "projects/p/secrets/B" |}];
     AddSecretVersion := fun req n =>
       (Ok {| secretmanagerpb.VersionName :=
                secretmanagerpb.AddParent req +:+ "/versions/1" |}, S n);
     AccessSecretVersion := fun _ _ => Err unavailable |}.

(** A service with an empty cache over the moving provider, before any
    write. *)
Definition moving_world : World moving :=
  Build_World moving
    {| projectId := "p"; stackName := "dev"; cache := ∅ |} 0 [].

End faulty.

(** ** Facts about [Split] *)

Lemma append_cons c a s : String c a +:+ s = String c (a +:+ s).
Proof. reflexivity. Qed.

Lemma Split_nonempty s sep : Split s sep <> [].
Proof.
  destruct s as [|a rest]; simpl; [discriminate|].
  destruct (Ascii.eqb a sep); [discriminate|].
  destruct (Split rest sep); discriminate.
Qed.

Lemma Split_no_sep s sep : occurs sep s = false -> Split s sep = [s].
Proof.
  induction s as [|a rest IH]; simpl; [reflexivity|].
  rewrite Ascii.eqb_sym.
  destruct (Ascii.eqb sep a); [discriminate|].
  intros H. rewrite (IH H). reflexivity.
Qed.

Lemma Split_two s sep :
  occurs sep s = true -> exists x y l, Split s sep = x :: y :: l.
Proof.
  induction s as [|a rest IH]; simpl; [discriminate|].
  destruct (Ascii.eqb a sep).
  - intros _. destruct (Split rest sep) as [|y l] eqn:Hs.
    + destruct (Split_nonempty _ _ Hs).
    + eauto.
  - intros H. destruct (IH H) as (x & y & l & ->). eauto.
Qed.

Lemma last_Split s sep : last (Split s sep) = Some (trailing_segment sep s).
Proof.
  induction s as [|a rest IH]; simpl; [reflexivity|].
  destruct (occurs sep rest) eqn:Hocc.
  - destruct (Split_two _ _ Hocc) as (x & y & l & Hs).
    rewrite Hs in *. rewrite <- IH.
    destruct (Ascii.eqb a sep); reflexivity.
  - rewrite (Split_no_sep _ _ Hocc).
    destruct (Ascii.eqb a sep); reflexivity.
Qed.

Lemma Split_index_last s sep :
  Split s sep !! (length (Split s sep) - 1) = Some (trailing_segment sep s).
Proof. rewrite Nat.sub_1_r, <- last_lookup. apply last_Split. Qed.

(** ** Facts about [trailing_segment] *)

Lemma trailing_segment_no_sep sep s :
  occurs sep (trailing_segment sep s) = false.
Proof.
  induction s as [|a rest IH]; simpl; [reflexivity|].
  destruct (occurs sep rest) eqn:Hocc; [exact IH|].
  destruct (Ascii.eqb a sep) eqn:Ha; [exact Hocc|].
  simpl. rewrite Ha. exact Hocc.
Qed.

Lemma occurs_app sep s t :
  occurs sep (s +:+ t) = occurs sep s || occurs sep t.
Proof.
  induction s as [|a rest IH]; simpl; [reflexivity|].
  destruct (Ascii.eqb a sep); [reflexivity|exact IH].
Qed.

Lemma trailing_segment_app sep p id :
  occurs sep id = false ->
  trailing_segment sep (p +:+ String sep id) = id.
Proof.
  intros Hid. induction p as [|a rest IH]; simpl.
  - rewrite Hid, Ascii.eqb_refl. reflexivity.
  - rewrite occurs_app. simpl. rewrite Ascii.eqb_refl, orb_true_r. exact IH.
Qed.

(** The trailing segment really is what follows the last separator. *)
Lemma trailing_segment_spec sep s :
  (occurs sep s = false /\ trailing_segment sep s = s) \/
  (exists p, s = p +:+ String sep (trailing_segment sep s)).
Proof.
  induction s as [|a rest IH]; simpl; [left; split; reflexivity|].
  destruct (occurs sep rest) eqn:Hocc.
  - right. destruct IH as [[H _]|[p Hp]]; [discriminate|].
    exists (String a p). rewrite append_cons. f_equal. exact Hp.
  - destruct (Ascii.eqb a sep) eqn:Ha.
    + right. exists EmptyString. apply Ascii.eqb_eq in Ha. subst. reflexivity.
    + left. split; reflexivity.
Qed.

(** ** The in-memory provider honours the addressing contract *)

Lemma sep_split_inj sep a b x y :
  occurs sep x = false -> occurs sep y = false ->
  a +:+ String sep x = b +:+ String sep y -> a = b /\ x = y.
Proof.
  intros Hx Hy. revert b.
  induction a as [|c a IH]; intros [|d b] H; simpl in H.
  - injection H as ->. split; reflexivity.
  - injection H as <- ->.
    rewrite occurs_app in Hx. simpl in Hx.
    rewrite Ascii.eqb_refl, orb_true_r in Hx. discriminate.
  - injection H as -> <-.
    rewrite occurs_app in Hy. simpl in Hy.
    rewrite Ascii.eqb_refl, orb_true_r in Hy. discriminate.
  - injection H as -> H. destruct (IH _ H) as [-> ->].
    split; reflexivity.
Qed.

Lemma versions_suffix_split a x :
  a +:+ "/versions/" +:+ x = (a +:+ "/versions") +:+ String "/" x.
Proof.
  induction a as [|c a IH]; [reflexivity|].
  change (String c (a +:+ "/versions/" +:+ x) =
          String c ((a +:+ "/versions") +:+ String "/" x)).
  f_equal. exact IH.
Qed.

Lemma version_path_inj a b x y :
  occurs "/" x = false -> occurs "/" y = false ->
  a +:+ "/versions/" +:+ x = b +:+ "/versions/" +:+ y -> a = b /\ x = y.
Proof.
  intros Hx Hy H. rewrite !versions_suffix_split in H.
  destruct (sep_split_inj _ _ _ _ _ Hx Hy H) as [Hab ->].
  split; [|reflexivity].
  by destruct (sep_split_inj "/" a b "versions" "versions" eq_refl eq_refl Hab).
Qed.

Lemma digits_no_slash d : occurs "/" (NilEmpty.string_of_uint d) = false.
Proof. induction d; simpl; auto. Qed.

Lemma version_id_no_slash n : occurs "/" (mem.version_id n) = false.
Proof.
  unfold mem.version_id, NilZero.string_of_uint.
  destruct (Nat.to_uint n) eqn:E; try reflexivity;
    rewrite <- E; apply digits_no_slash.
Qed.

Lemma version_id_nonempty n : mem.version_id n <> EmptyString.
Proof.
  unfold mem.version_id, NilZero.string_of_uint.
  destruct (Nat.to_uint n); discriminate.
Qed.

Lemma to_uint_nonnil n : Nat.to_uint n <> Nil.
Proof.
  rewrite <- (DecimalNat.Unsigned.of_to n) at 1.
  rewrite DecimalNat.Unsigned.to_of. apply DecimalFacts.unorm_nonnil.
Qed.

Lemma version_id_inj n m : mem.version_id n = mem.version_id m -> n = m.
Proof.
  unfold mem.version_id. intros H.
  apply DecimalNat.Unsigned.to_uint_inj.
  assert (Hn := NilZero.usu _ (to_uint_nonnil n)).
  assert (Hm := NilZero.usu _ (to_uint_nonnil m)).
  congruence.
Qed.

Lemma version_name_inj p q n m :
  mem.version_name p n = mem.version_name q m -> p = q /\ n = m.
Proof.
  unfold mem.version_name. intros H.
  apply version_path_inj in H; try apply version_id_no_slash.
  destruct H as [-> H]. split; [reflexivity|]. by apply version_id_inj.
Qed.

Lemma find_version_other full p q n i vs :
  full = mem.version_name p n -> p <> q ->
  mem.find_version full q i vs = None.
Proof.
  intros -> Hpq. revert i.
  induction vs as [|v vs IH]; intros i; simpl; [reflexivity|].
  destruct (String.eqb_spec (mem.version_name p n) (mem.version_name q (S i)))
    as [E|_]; [|apply IH].
  apply version_name_inj in E. tauto.
Qed.

Lemma find_version_last p i vs data :
  mem.find_version (mem.version_name p (S (i + length vs))) p i (vs ++ [data])
  = Some data.
Proof.
  revert i. induction vs as [|v vs IH]; intros i; simpl.
  - rewrite Nat.add_0_r, String.eqb_refl. reflexivity.
  - destruct (String.eqb_spec (mem.version_name p (S (i + S (length vs))))
                (mem.version_name p (S i))) as [E|_].
    + apply version_name_inj in E. lia.
    + rewrite <- Nat.add_succ_comm. apply IH.
Qed.

Lemma add_then_access parent data st n st' :
  mem.add_version parent data st = Some (n, st') ->
  mem.access_version (mem.version_name parent n) st' = Some data.
Proof.
  revert n st'. induction st as [|c rest IH]; intros n st'; simpl;
    [discriminate|].
  destruct (String.eqb_spec (mem.name c) parent) as [E|E].
  - intros [= <- <-]. simpl. rewrite E.
    pose proof (find_version_last parent 0 (mem.versions c) data) as Hlast.
    simpl in Hlast. by rewrite Hlast.
  - destruct (mem.add_version parent data rest) as [[m rest']|] eqn:Hadd;
      [|discriminate].
    intros [= <- <-]. simpl.
    rewrite (find_version_other _ parent (mem.name c) m); auto.
Qed.

Lemma mem_client_addressed : Addressed mem.client.
Proof.
  split; simpl; unfold mem.add_secret_version;
    intros req b v b' H;
    destruct (mem.add_version _ _ b) as [[n st']|] eqn:Hadd;
    try discriminate; injection H as <- <-; simpl.
  - exists (mem.version_id n).
    split; [reflexivity|].
    split; [apply version_id_nonempty | apply version_id_no_slash].
  - unfold mem.access_secret_version. simpl.
    rewrite (add_then_access _ _ _ _ _ Hadd). eauto.
Qed.

(** ** Running the service *)

Section Claims.
Variable client : SecretManagerClient.
Implicit Types (w : World client) (sec : secret.Secret).

Lemma getSecret_run sec w :
  getSecret client (Some sec) w =
  let req := lookup_request (self w) (secret.Name sec) in
  let w1 := logged w (CallListSecrets req) in
  match Next (ListSecrets client req (remote w)) with
  | Ok r =>
      (Ret (Ok r), cached w1 (secret.Name sec) (secretmanagerpb.Name r))
  | Err IteratorDone =>
      (Ret (Err (StatusError grpcCodes.NotFound "secret not found")), w1)
  | Err e => (Ret (Err e), w1)
  end.
Proof.
  unfold_service. simpl.
  destruct (Next _) as [r|[]]; reflexivity.
Qed.

Lemma getSecret_nil w :
  exists msg, getSecret client None w = (Panic msg, w).
Proof. unfold_service. simpl. eauto. Qed.

Lemma String_length_0 (s : string) :
  Nat.eqb (String.length s) 0 = true <-> s = EmptyString.
Proof. destruct s; simpl; split; congruence. Qed.

Lemma validateNewSecret_ok (osec : option secret.Secret) val :
  validateNewSecret osec val = None <->
  exists sec, osec = Some sec /\ secret.Name sec <> EmptyString /\ val <> [].
Proof.
  unfold validateNewSecret. destruct osec as [sec|].
  - destruct (Nat.eqb (String.length (secret.Name sec)) 0) eqn:Hn.
    + apply String_length_0 in Hn.
      split; [discriminate|]. intros (s & [= <-] & H & _). contradiction.
    + destruct val as [|b val]; simpl.
      * split; [discriminate|]. intros (s & _ & _ & H). contradiction.
      * split; [|reflexivity]. intros _. exists sec.
        repeat split; [|discriminate].
        intros Hs. apply String_length_0 in Hs. congruence.
  - split; [discriminate|]. intros (s & [=] & _).
Qed.

Lemma Put_run sec val w :
  secret.Name sec <> EmptyString -> val <> [] ->
  Put client (Some sec) val w =
  let req := lookup_request (self w) (secret.Name sec) in
  let w1 := logged w (CallListSecrets req) in
  match Next (ListSecrets client req (remote w)) with
  | Err IteratorDone =>
      (Ret (Err (PutErr (Some sec) codes.Internal
                   "error ensuring secret container exists"
                   (StatusError grpcCodes.NotFound "secret not found"))), w1)
  | Err e =>
      (Ret (Err (PutErr (Some sec) codes.Internal
                   "error ensuring secret container exists" e)), w1)
  | Ok r =>
      let w2 := cached w1 (secret.Name sec) (secretmanagerpb.Name r) in
      let areq := add_request r val in
      let w3 b :=
        {| self := self w2; remote := b;
           trace := trace w2 ++ [CallAddSecretVersion areq] |} in
      match AddSecretVersion client areq (remote w) with
      | (Err e, b) =>
          (Ret (Err (PutErr (Some sec) codes.Internal
                       "failed to add new secret version" e)), w3 b)
      | (Ok v, b) =>
          (Ret (Ok (put_response (secret.Name sec)
                      (trailing_segment "/"
                         (secretmanagerpb.VersionName v)))), w3 b)
      end
  end.
Proof.
  intros Hn Hv.
  assert (Hval : validateNewSecret (Some sec) val = None).
  { apply validateNewSecret_ok. eauto. }
  unfold Put. rewrite Hval. unfold bind at 1. rewrite getSecret_run.
  cbv zeta.
  destruct (Next _) as [r|e].
  - unfold_service. simpl.
    destruct (AddSecretVersion client _ (remote w)) as [[v|e] b];
      simpl; [|reflexivity].
    rewrite Split_index_last. reflexivity.
  - destruct e; reflexivity.
Qed.

Lemma Put_invalid (osec : option secret.Secret) val w e :
  validateNewSecret osec val = Some e ->
  Put client osec val w =
  (Ret (Err (PutErr osec codes.InvalidArgument "invalid secret" e)), w).
Proof. intros H. unfold Put. rewrite H. reflexivity. Qed.

(** How [buildSecretVersionName] runs on a non-nil version of a non-nil
    secret. *)
Lemma buildSecretVersionName_run sec ver w :
  buildSecretVersionName client
    (Some {| secret.Secret_ := Some sec; secret.Version := ver |}) w =
  if Nat.eqb (String.length (secret.Name sec)) 0
  then (Ret (Err (Errorf "provide non-blank name")), w)
  else if Nat.eqb (String.length ver) 0
  then (Ret (Err (Errorf "provide non-blank version")), w)
  else
    match cache (self w) !! secret.Name sec with
    | Some parent => (Ret (Ok (parent +:+ "/versions/" +:+ ver)), w)
    | None =>
        let req := lookup_request (self w) (secret.Name sec) in
        let w1 := logged w (CallListSecrets req) in
        match Next (ListSecrets client req (remote w)) with
        | Ok r =>
            (Ret (Ok (secretmanagerpb.Name r +:+ "/versions/" +:+ ver)),
             cached w1 (secret.Name sec) (secretmanagerpb.Name r))
        | Err IteratorDone =>
            (Ret (Err (StatusError grpcCodes.NotFound "secret not found")),
             w1)
        | Err e => (Ret (Err e), w1)
        end
    end.
Proof.
  unfold buildSecretVersionName, bind, deref, ret, get_self. simpl.
  destruct (Nat.eqb (String.length (secret.Name sec)) 0); [reflexivity|].
  destruct (Nat.eqb (String.length ver) 0); [reflexivity|].
  destruct (cache (self w) !! secret.Name sec); [reflexivity|].
  rewrite getSecret_run. cbv zeta.
  destruct (Next _) as [r|[]]; reflexivity.
Qed.

(** [Access], once [buildSecretVersionName] has run. *)
Lemma Access_run (sv : option secret.SecretVersion) w :
  Access client sv w =
  match buildSecretVersionName client sv w with
  | (Panic msg, w') => (Panic msg, w')
  | (Ret (Err e), w') =>
      (Ret (Err (AccessErr sv codes.InvalidArgument
                   "invalid secret version" e)), w')
  | (Ret (Ok fullName), w') =>
      let req := {| secretmanagerpb.AccessName := fullName |} in
      let w2 := logged w' (CallAccessSecretVersion req) in
      match AccessSecretVersion client req (remote w') with
      | Err e =>
          (Ret (Err (AccessErr sv codes.Internal
                       "failed to access secret version" e)), w2)
      | Ok res =>
          match sv with
          | Some sv' =>
              (Ret (Ok {| secret.AccessSecretVersion_ := sv';
                          secret.Value :=
                            secretmanagerpb.GetData
                              (secretmanagerpb.Payload res) |}), w2)
          | None =>
              (Panic "invalid memory address or nil pointer dereference", w2)
          end
      end
  end.
Proof.
  unfold Access, bind at 1.
  destruct (buildSecretVersionName client sv w) as [[[full|e]|msg] w'];
    try reflexivity.
  unfold_service. simpl.
  destruct (AccessSecretVersion client _ (remote w')); [|reflexivity].
  destruct sv; reflexivity.
Qed.

Lemma validateNewSecret_invalid (osec : option secret.Secret) val :
  osec = None \/ (exists sec, osec = Some sec /\ secret.Name sec = EmptyString)
  \/ val = [] ->
  exists e, validateNewSecret osec val = Some e.
Proof.
  intros H. destruct (validateNewSecret osec val) as [e|] eqn:Hv; [eauto|].
  apply validateNewSecret_ok in Hv as (s & -> & Hn & Hval).
  destruct H as [[=]|[(s' & [= <-] & Hs)|Hnil]]; contradiction.
Qed.

(** C5. [Put] with a nil secret, an empty name or an empty value fails with
    kind InvalidArgument, and the world it leaves is the world it found: no
    call reached the provider. *)
Theorem Put_rejects_invalid_arguments (osec : option secret.Secret) val w :
  osec = None \/ (exists sec, osec = Some sec /\ secret.Name sec = EmptyString)
  \/ val = [] ->
  exists e,
    Put client osec val w = (Ret (Err e), w) /\
    Code_of e = Some codes.InvalidArgument.
Proof.
  intros H. destruct (validateNewSecret_invalid _ _ H) as [e He].
  eexists. split; [apply (Put_invalid _ _ _ _ He)|reflexivity].
Qed.

(** C6. [Access] with an empty name or an empty version fails with kind
    InvalidArgument, and the world it leaves is the world it found: no call
    reached the provider. *)
Theorem Access_rejects_blank_name_or_version sec ver w :
  secret.Name sec = EmptyString \/ ver = EmptyString ->
  exists e,
    Access client
      (Some {| secret.Secret_ := Some sec; secret.Version := ver |}) w
    = (Ret (Err e), w) /\
    Code_of e = Some codes.InvalidArgument.
Proof.
  intros H. rewrite Access_run, buildSecretVersionName_run.
  destruct (Nat.eqb (String.length (secret.Name sec)) 0) eqn:Hn.
  - eexists. split; reflexivity.
  - destruct (Nat.eqb (String.length ver) 0) eqn:Hv.
    + eexists. split; reflexivity.
    + exfalso. destruct H as [H|H]; rewrite H in *; discriminate.
Qed.

(** C8. [Access] panics exactly when [sv] or [sv.Secret] is nil, and it does
    so before anything else happened: the world is untouched.  On every
    other input it returns. *)
Theorem Access_panics_exactly_on_nil (sv : option secret.SecretVersion) w :
  if nil_version sv
  then exists msg, Access client sv w = (Panic msg, w)
  else exists r w', Access client sv w = (Ret r, w').
Proof.
  destruct sv as [[[sec|] ver]|]; simpl.
  - rewrite Access_run, buildSecretVersionName_run. cbv zeta.
    destruct (Nat.eqb (String.length (secret.Name sec)) 0); [eauto|].
    destruct (Nat.eqb (String.length ver) 0); [eauto|].
    destruct (cache (self w) !! secret.Name sec).
    + destruct (AccessSecretVersion client _ _); eauto.
    + destruct (Next _) as [r|[]]; eauto.
      destruct (AccessSecretVersion client _ _); eauto.
  - rewrite Access_run. unfold_service. simpl. eauto.
  - rewrite Access_run. unfold_service. simpl. eauto.
Qed.

(** What a successful [Put] went through. *)
Lemma Put_ok_inv (osec : option secret.Secret) val w resp w' :
  Put client osec val w = (Ret (Ok resp), w') ->
  exists sec r v,
    osec = Some sec /\ secret.Name sec <> EmptyString /\ val <> [] /\
    Next (ListSecrets client (lookup_request (self w) (secret.Name sec))
            (remote w)) = Ok r /\
    AddSecretVersion client (add_request r val) (remote w)
      = (Ok v, remote w') /\
    resp = put_response (secret.Name sec)
             (trailing_segment "/" (secretmanagerpb.VersionName v)) /\
    cache (self w') =
      <[secret.Name sec := secretmanagerpb.Name r]> (cache (self w)) /\
    trace w' =
      ((trace w ++ [CallListSecrets
                      (lookup_request (self w) (secret.Name sec))]) ++
       [CallAddSecretVersion (add_request r val)])%list.
Proof.
  intros H.
  destruct (validateNewSecret osec val) as [e|] eqn:Hv.
  { rewrite (Put_invalid _ _ _ _ Hv) in H. discriminate. }
  apply validateNewSecret_ok in Hv as (sec & -> & Hn & Hval).
  rewrite (Put_run _ _ _ Hn Hval) in H. cbv zeta in H.
  destruct (Next _) as [r|e] eqn:Hnext.
  - destruct (AddSecretVersion client _ (remote w)) as [[v|e] b] eqn:Hadd.
    + injection H as <- <-. exists sec, r, v. simpl. by repeat split.
    + discriminate.
  - destruct e; discriminate.
Qed.

(** C10. The version a successful [Put] returns is the trailing path
    segment of the resource name the provider's create-version call
    returned: what follows its last [/].  The response carries the secret's
    name and that version, nothing else. *)
Theorem Put_returns_trailing_segment
    (osec : option secret.Secret) val w resp w' :
  Put client osec val w = (Ret (Ok resp), w') ->
  exists sec req v,
    osec = Some sec /\
    last (trace w') = Some (CallAddSecretVersion req) /\
    AddSecretVersion client req (remote w) = (Ok v, remote w') /\
    resp = put_response (secret.Name sec)
             (trailing_segment "/" (secretmanagerpb.VersionName v)) /\
    is_trailing_segment "/" (secretmanagerpb.VersionName v)
      (secret.Version (secret.PutSecretVersion resp)).
Proof.
  intros H.
  apply Put_ok_inv in H
    as (sec & r & v & -> & _ & _ & _ & Hadd & -> & _ & Htrace).
  exists sec, (add_request r val), v.
  split; [reflexivity|].
  split; [rewrite Htrace; apply last_snoc|].
  split; [exact Hadd|].
  split; [reflexivity|].
  simpl. split; [apply trailing_segment_no_sep|].
  destruct (trailing_segment_spec "/" (secretmanagerpb.VersionName v))
    as [[Hno Heq]|Hp]; [left|right; exact Hp].
  split; [exact Hno|symmetry; exact Heq].
Qed.

(** C3. Over a provider that honours the addressing contract, a [Put]
    that succeeded is read back byte for byte: [Access] of the returned
    version, run on the world the [Put] left, succeeds with exactly the
    value that was put. *)
Theorem Put_then_Access_roundtrip
    (HA : Addressed client) (osec : option secret.Secret) val w resp w1 :
  Put client osec val w = (Ret (Ok resp), w1) ->
  exists sec w2,
    osec = Some sec /\
    Access client (Some (version_of (secret.Name sec) resp)) w1 =
    (Ret (Ok {| secret.AccessSecretVersion_ :=
                  version_of (secret.Name sec) resp;
                secret.Value := val |}), w2) /\
    remote w2 = remote w1.
Proof.
  intros H.
  apply Put_ok_inv in H
    as (sec & r & v & -> & Hn & _ & _ & Hadd & -> & Hcache & _).
  destruct (version_named _ HA _ _ _ _ Hadd) as (id & Hname & Hid & Hslash).
  destruct (read_after_write _ HA _ _ _ _ Hadd) as (res & Hres & Hdata).
  simpl in Hname, Hdata.
  assert (Hseg : trailing_segment "/" (secretmanagerpb.VersionName v) = id).
  { rewrite Hname, versions_suffix_split.
    by apply trailing_segment_app. }
  exists sec. eexists. split; [reflexivity|].
  unfold version_of, put_response. simpl.
  rewrite Access_run, buildSecretVersionName_run, Hseg. simpl.
  destruct (Nat.eqb (String.length (secret.Name sec)) 0) eqn:E1.
  { apply String_length_0 in E1. contradiction. }
  destruct (Nat.eqb (String.length id) 0) eqn:E2.
  { apply String_length_0 in E2. contradiction. }
  rewrite Hcache, lookup_insert_eq, <- Hname, Hres, Hdata.
  split; reflexivity.
Qed.

(** ** The resolution cache *)

Lemma getSecret_cache sec w :
  match getSecret client (Some sec) w with
  | (Ret (Ok r), w') =>
      cache (self w') =
      <[secret.Name sec := secretmanagerpb.Name r]> (cache (self w))
  | (_, w') => cache (self w') = cache (self w)
  end.
Proof.
  rewrite getSecret_run. cbv zeta.
  destruct (Next _) as [r|[]]; reflexivity.
Qed.

Lemma getSecret_dom (osec : option secret.Secret) w :
  dom (cache (self w)) ⊆ dom (cache (self (snd (getSecret client osec w)))).
Proof.
  destruct osec as [sec|].
  - pose proof (getSecret_cache sec w) as H.
    destruct (getSecret client (Some sec) w) as [[[r|e]|msg] w'];
      simpl; rewrite H; [|done..].
    rewrite dom_insert_L. set_solver.
  - destruct (getSecret_nil w) as [msg ->]. done.
Qed.

Lemma step_cache (op : Op) w :
  cache (self (step client op w)) =
  if resolves op w
  then cache (self (snd (getSecret client (target op) w)))
  else cache (self w).
Proof.
  destruct op as [osec val|sv]; simpl.
  - destruct (validateNewSecret osec val) as [e|] eqn:Hv.
    + by rewrite (Put_invalid _ _ _ _ Hv).
    + apply validateNewSecret_ok in Hv as (sec & -> & Hn & Hval).
      rewrite (Put_run _ _ _ Hn Hval), getSecret_run. cbv zeta.
      destruct (Next _) as [r|[]]; try reflexivity.
      by destruct (AddSecretVersion client _ (remote w)) as [[v|e] b].
  - destruct sv as [[[sec|] ver]|]; simpl.
    + rewrite Access_run, buildSecretVersionName_run, getSecret_run.
      cbv zeta.
      destruct (Nat.eqb (String.length (secret.Name sec)) 0); [done|].
      destruct (Nat.eqb (String.length ver) 0); [done|].
      destruct (cache (self w) !! secret.Name sec); simpl.
      * by destruct (AccessSecretVersion client _ _).
      * destruct (Next _) as [r|[]]; try reflexivity.
        by destruct (AccessSecretVersion client _ _).
    + reflexivity.
    + reflexivity.
Qed.

Lemma step_dom (op : Op) w :
  dom (cache (self w)) ⊆ dom (cache (self (step client op w))).
Proof.
  rewrite step_cache. destruct (resolves op w); [|done].
  apply getSecret_dom.
Qed.

Lemma run_dom (ops : list Op) w :
  dom (cache (self w)) ⊆ dom (cache (self (run client ops w))).
Proof.
  revert w. induction ops as [|op ops IH]; intros w; simpl; [done|].
  etrans; [apply (step_dom op)|apply IH].
Qed.

(** [Access] of a well-formed version whose secret is neither cached nor
    known to the provider. *)
Lemma Access_unknown_run sec ver w :
  secret.Name sec <> EmptyString -> ver <> EmptyString ->
  cache (self w) !! secret.Name sec = None ->
  Next (ListSecrets client (lookup_request (self w) (secret.Name sec))
          (remote w)) = Err IteratorDone ->
  let sv := Some {| secret.Secret_ := Some sec; secret.Version := ver |} in
  Access client sv w =
  (Ret (Err (AccessErr sv codes.InvalidArgument "invalid secret version"
               (StatusError grpcCodes.NotFound "secret not found"))),
   logged w (CallListSecrets (lookup_request (self w) (secret.Name sec)))).
Proof.
  intros Hn Hv Hmiss Hdone. cbv zeta.
  rewrite Access_run, buildSecretVersionName_run. cbv zeta.
  destruct (Nat.eqb (String.length (secret.Name sec)) 0) eqn:E1.
  { apply String_length_0 in E1. contradiction. }
  destruct (Nat.eqb (String.length ver) 0) eqn:E2.
  { apply String_length_0 in E2. contradiction. }
  rewrite Hmiss, Hdone. reflexivity.
Qed.

(** An operation leaves the entries of all other names as they were. *)
Lemma step_other_names (op : Op) w (k : string) :
  (forall sec, target op = Some sec -> secret.Name sec <> k) ->
  cache (self (step client op w)) !! k = cache (self w) !! k.
Proof.
  intros Hk. rewrite step_cache. destruct (resolves op w); [|done].
  destruct (target op) as [sec|].
  - pose proof (getSecret_cache sec w) as H.
    destruct (getSecret client (Some sec) w) as [[[r|e]|msg] w'];
      simpl; rewrite H; [|done..].
    apply lookup_insert_ne. by apply Hk.
  - by destruct (getSecret_nil w) as [msg ->].
Qed.

(** [Access] resolves only names the cache does not hold, so it keeps every
    entry as it is. *)
Lemma Access_keeps_entries (sv : option secret.SecretVersion) w :
  cache (self w) ⊆ cache (self (step client (OpAccess sv) w)).
Proof.
  rewrite step_cache.
  destruct (resolves (OpAccess sv) w) eqn:Hres; [|done].
  destruct sv as [[[sec|] ver]|]; simpl in *; try discriminate.
  destruct (cache (self w) !! secret.Name sec) eqn:Hmiss.
  { rewrite andb_false_r in Hres. discriminate. }
  pose proof (getSecret_cache sec w) as H.
  destruct (getSecret client (Some sec) w) as [[[r|e]|msg] w'];
    simpl; rewrite H; [|done..].
  by apply insert_subseteq.
Qed.

(** A [Put] that finds a container stores it under the secret's name. *)
Lemma Put_stores_resolution sec val w x rest :
  secret.Name sec <> EmptyString -> val <> [] ->
  ListSecrets client (lookup_request (self w) (secret.Name sec)) (remote w)
    = IterItems (x :: rest) ->
  cache (self (step client (OpPut (Some sec) val) w)) !! secret.Name sec =
  Some (secretmanagerpb.Name x).
Proof.
  intros Hn Hval Hlist. simpl.
  rewrite (Put_run _ _ _ Hn Hval). cbv zeta. rewrite Hlist. simpl.
  destruct (AddSecretVersion client _ (remote w)) as [[v|e] b]; simpl;
    apply lookup_insert_eq.
Qed.

(** An [Access] that has to look the container up and finds it stores it
    under the secret's name. *)
Lemma Access_stores_resolution sec ver w x rest :
  secret.Name sec <> EmptyString -> ver <> EmptyString ->
  cache (self w) !! secret.Name sec = None ->
  ListSecrets client (lookup_request (self w) (secret.Name sec)) (remote w)
    = IterItems (x :: rest) ->
  cache (self (step client (OpAccess (a_version sec ver)) w))
    !! secret.Name sec = Some (secretmanagerpb.Name x).
Proof.
  intros Hn Hv Hmiss Hlist. simpl. unfold a_version.
  rewrite Access_run, buildSecretVersionName_run. cbv zeta.
  destruct (Nat.eqb (String.length (secret.Name sec)) 0) eqn:E1.
  { apply String_length_0 in E1. contradiction. }
  destruct (Nat.eqb (String.length ver) 0) eqn:E2.
  { apply String_length_0 in E2. contradiction. }
  rewrite Hmiss, Hlist. simpl.
  destruct (AccessSecretVersion client _ _); simpl; apply lookup_insert_eq.
Qed.

(** C7 (amended). The resolution cache never loses a name.  Over any
    sequence of [Put] and [Access] calls on one service no cached name is
    ever dropped; an operation changes the cache only through the
    resolution it performs and leaves the entries of all other names as
    they are; [Access] keeps every entry as it is, while a [Put] stores
    anew the entry of its own name, with the container it has just been
    listed.  A resolution stores the name exactly when it succeeds, through
    [Put] as through [Access], and leaves the cache as it was when it
    fails; [Access] of an unknown secret fails leaving the service and the
    provider as they were. *)
Theorem cache_grows_monotonically :
  (forall (ops : list Op) w,
      dom (cache (self w)) ⊆ dom (cache (self (run client ops w)))) /\
  (forall (op : Op) w,
      cache (self (step client op w)) =
      if resolves op w
      then cache (self (snd (getSecret client (target op) w)))
      else cache (self w)) /\
  (forall (op : Op) w (k : string),
      (forall sec, target op = Some sec -> secret.Name sec <> k) ->
      cache (self (step client op w)) !! k = cache (self w) !! k) /\
  (forall (sv : option secret.SecretVersion) w,
      cache (self w) ⊆ cache (self (step client (OpAccess sv) w))) /\
  (forall sec w,
      match getSecret client (Some sec) w with
      | (Ret (Ok r), w') =>
          cache (self w') =
          <[secret.Name sec := secretmanagerpb.Name r]> (cache (self w))
      | (_, w') => cache (self w') = cache (self w)
      end) /\
  (forall sec val w x rest,
      secret.Name sec <> EmptyString -> val <> [] ->
      ListSecrets client (lookup_request (self w) (secret.Name sec))
        (remote w) = IterItems (x :: rest) ->
      cache (self (step client (OpPut (Some sec) val) w))
        !! secret.Name sec = Some (secretmanagerpb.Name x)) /\
  (forall sec ver w x rest,
      secret.Name sec <> EmptyString -> ver <> EmptyString ->
      cache (self w) !! secret.Name sec = None ->
      ListSecrets client (lookup_request (self w) (secret.Name sec))
        (remote w) = IterItems (x :: rest) ->
      cache (self (step client (OpAccess (a_version sec ver)) w))
        !! secret.Name sec = Some (secretmanagerpb.Name x)) /\
  (forall sec ver w,
      secret.Name sec <> EmptyString -> ver <> EmptyString ->
      cache (self w) !! secret.Name sec = None ->
      Next (ListSecrets client (lookup_request (self w) (secret.Name sec))
              (remote w)) = Err IteratorDone ->
      exists e w',
        Access client
          (Some {| secret.Secret_ := Some sec; secret.Version := ver |}) w
        = (Ret (Err e), w') /\
        self w' = self w /\ remote w' = remote w).
Proof.
  split; [exact run_dom|].
  split; [exact step_cache|].
  split; [exact step_other_names|].
  split; [exact Access_keeps_entries|].
  split; [exact getSecret_cache|].
  split; [exact Put_stores_resolution|].
  split; [exact Access_stores_resolution|].
  intros sec ver w Hn Hv Hmiss Hdone.
  pose proof (Access_unknown_run sec ver w Hn Hv Hmiss Hdone) as H.
  cbv zeta in H. rewrite H. eauto.
Qed.

(** ** Listings and the cache *)

Lemma list_calls_snoc (t : list Call) (c : Call) :
  list_calls (t ++ [c]) =
  list_calls t + (if is_list_call c then 1 else 0).
Proof.
  unfold list_calls. rewrite List.filter_app, length_app. simpl.
  destruct (is_list_call c); reflexivity.
Qed.

(** Every [Put] that passes validation lists the provider once, whatever
    the cache holds. *)
Lemma Put_lists_once sec val w :
  secret.Name sec <> EmptyString -> val <> [] ->
  list_calls (trace (snd (Put client (Some sec) val w))) =
  S (list_calls (trace w)).
Proof.
  intros Hn Hval. rewrite (Put_run _ _ _ Hn Hval). cbv zeta.
  destruct (Next _) as [r|[]]; simpl; rewrite ?list_calls_snoc; simpl;
    try lia.
  destruct (AddSecretVersion client _ (remote w)) as [[v|e] b]; simpl;
    rewrite !list_calls_snoc; simpl; lia.
Qed.

(** C2 (amended). On the [Access] path a name found in the cache is resolved
    from the cache: [buildSecretVersionName] answers with the cached
    container reference, touches nothing, and [Access] adds no listing to
    the trace.  [Put] does not look at the cache: with valid arguments it
    lists the provider once on every call. *)
Theorem cached_name_is_resolved_without_listing sec ver parent w :
  secret.Name sec <> EmptyString -> ver <> EmptyString ->
  cache (self w) !! secret.Name sec = Some parent ->
  let sv := Some {| secret.Secret_ := Some sec; secret.Version := ver |} in
  buildSecretVersionName client sv w =
    (Ret (Ok (parent +:+ "/versions/" +:+ ver)), w) /\
  list_calls (trace (snd (Access client sv w))) = list_calls (trace w) /\
  (forall val, val <> [] ->
     list_calls (trace (snd (Put client (Some sec) val w))) =
     S (list_calls (trace w))).
Proof.
  intros Hn Hv Hhit sv.
  assert (Hb : buildSecretVersionName client sv w =
               (Ret (Ok (parent +:+ "/versions/" +:+ ver)), w)).
  { unfold sv. rewrite buildSecretVersionName_run.
    destruct (Nat.eqb (String.length (secret.Name sec)) 0) eqn:E1.
    { apply String_length_0 in E1. contradiction. }
    destruct (Nat.eqb (String.length ver) 0) eqn:E2.
    { apply String_length_0 in E2. contradiction. }
    by rewrite Hhit. }
  split; [exact Hb|]. split.
  - rewrite Access_run, Hb. cbv zeta.
    destruct (AccessSecretVersion client _ (remote w)); simpl;
      rewrite list_calls_snoc; simpl; lia.
  - intros val Hval. by apply Put_lists_once.
Qed.

(** C4 (amended). [Access] of a well-formed version whose secret is neither
    cached nor known to the provider fails with kind InvalidArgument; the
    cause it wraps is the NotFound status. *)
Theorem Access_unknown_secret_is_InvalidArgument sec ver w :
  secret.Name sec <> EmptyString -> ver <> EmptyString ->
  cache (self w) !! secret.Name sec = None ->
  Next (ListSecrets client (lookup_request (self w) (secret.Name sec))
          (remote w)) = Err IteratorDone ->
  exists e w',
    Access client
      (Some {| secret.Secret_ := Some sec; secret.Version := ver |}) w
    = (Ret (Err e), w') /\
    Code_of e = Some codes.InvalidArgument /\
    Cause_of e = Some (StatusError grpcCodes.NotFound "secret not found").
Proof.
  intros Hn Hv Hmiss Hdone.
  pose proof (Access_unknown_run sec ver w Hn Hv Hmiss Hdone) as H.
  cbv zeta in H. rewrite H. eexists. eexists.
  split; [reflexivity|]. split; reflexivity.
Qed.

(** [Put] for a name without a container: the listing comes back empty and
    [Put] gives up; no other call is made. *)
Lemma Put_missing_container sec val w :
  secret.Name sec <> EmptyString -> val <> [] ->
  Next (ListSecrets client (lookup_request (self w) (secret.Name sec))
          (remote w)) = Err IteratorDone ->
  Put client (Some sec) val w =
  (Ret (Err (PutErr (Some sec) codes.Internal
               "error ensuring secret container exists"
               (StatusError grpcCodes.NotFound "secret not found"))),
   logged w (CallListSecrets (lookup_request (self w) (secret.Name sec)))).
Proof.
  intros Hn Hval Hdone. rewrite (Put_run _ _ _ Hn Hval). cbv zeta.
  by rewrite Hdone.
Qed.

End Claims.

(** ** The claims on the concrete deployment *)

(** C1. A [Put] with valid arguments for a name that has no container does
    not create one: the only provider call is the listing, the store stays
    empty, and the caller gets an Internal error wrapping NotFound. *)
Theorem Put_does_not_create_missing_container :
  Put mem.client (Some demo.dbpass) demo.s3cr3t demo.unprovisioned =
  (Ret (Err (PutErr (Some demo.dbpass) codes.Internal
               "error ensuring secret container exists"
               (StatusError grpcCodes.NotFound "secret not found"))),
   Build_World mem.client (self demo.unprovisioned) []
     [CallListSecrets
        {| secretmanagerpb.ListParent := "projects/p";
           secretmanagerpb.Filter :=
             "labels.x-nitric-name=db-pass AND labels.x-nitric-stack=dev"
        |}]).
Proof.
  apply (Put_missing_container mem.client demo.dbpass demo.s3cr3t
           demo.unprovisioned).
  - discriminate.
  - discriminate.
  - reflexivity.
Qed.

(** C2, as stated, fails: after a first [Put] the name is cached, yet the
    second [Put] for the same name lists the provider again. *)
Lemma second_Put_lists_again :
  cache (self demo.after_put) !! secret.Name demo.dbpass =
    Some "projects/p/secrets/s1" /\
  list_calls
    (trace (snd (Put mem.client (Some demo.dbpass) demo.s3cr3t
                   demo.after_put)))
  <> list_calls (trace demo.after_put).
Proof. split; [reflexivity|]. vm_compute. discriminate. Qed.

(** C4, as stated, fails: [Access] of an unknown secret reports
    InvalidArgument, not Internal. *)
Lemma Access_unknown_secret_not_Internal :
  Next (ListSecrets mem.client
          (lookup_request (self demo.unprovisioned) "db-pass")
          (remote demo.unprovisioned)) = Err IteratorDone /\
  exists e w',
    Access mem.client
      (Some {| secret.Secret_ := Some demo.dbpass; secret.Version := "1" |})
      demo.unprovisioned = (Ret (Err e), w') /\
    Code_of e <> Some codes.Internal.
Proof.
  split; [reflexivity|]. eexists. eexists.
  split; [reflexivity|discriminate].
Qed.

(** C7, as stated, fails: an operation can replace an existing entry.  On a
    provider whose listing moves after a write, the first [Put] of a fresh
    service caches container [A] for the name and the second [Put] puts
    container [B] in its place. *)
Lemma second_Put_replaces_entry :
  cache (self (step faulty.moving (OpPut (Some demo.dbpass) demo.s3cr3t)
                 faulty.moving_world)) !! "db-pass"
    = Some "projects/p/secrets/A" /\
  cache (self (run faulty.moving
                 [OpPut (Some demo.dbpass) demo.s3cr3t;
                  OpPut (Some demo.dbpass) demo.s3cr3t]
                 faulty.moving_world)) !! "db-pass"
    = Some "projects/p/secrets/B" /\
  ~ (cache (self (step faulty.moving (OpPut (Some demo.dbpass) demo.s3cr3t)
                    faulty.moving_world))
     ⊆ cache (self (run faulty.moving
                      [OpPut (Some demo.dbpass) demo.s3cr3t;
                       OpPut (Some demo.dbpass) demo.s3cr3t]
                      faulty.moving_world))).
Proof.
  split; [reflexivity|]. split; [reflexivity|].
  intros Hsub.
  rewrite map_subseteq_spec in Hsub.
  specialize (Hsub "db-pass" "projects/p/secrets/A" eq_refl).
  vm_compute in Hsub. discriminate.
Qed.

(** ** Instances of the conditional theorems *)

(** The names of a run stay cached and the resolutions of [Put] and of
    [Access] are stored, on the store that holds the container of
    [db-pass]. *)
Lemma cache_grows_monotonically_witness :
  cache (self (step mem.client (OpPut (Some demo.dbpass) demo.s3cr3t)
                 demo.provisioned)) !! "db-pass"
    = Some "projects/p/secrets/s1" /\
  cache (self (step mem.client (OpAccess (a_version demo.dbpass "1"))
                 demo.provisioned)) !! "db-pass"
    = Some "projects/p/secrets/s1" /\
  dom (cache (self demo.after_put)) ⊆
  dom (cache (self (run mem.client
                      [OpAccess (a_version demo.dbpass "7");
                       OpPut None []] demo.after_put))).
Proof.
  destruct (cache_grows_monotonically mem.client)
    as (Hdom & _ & _ & _ & _ & Hput & Hacc & _).
  split; [|split].
  - apply (Hput demo.dbpass demo.s3cr3t demo.provisioned
             {| secretmanagerpb.Name := "projects/p/secrets/s1" |} []).
    + discriminate.
    + discriminate.
    + reflexivity.
  - apply (Hacc demo.dbpass "1" demo.provisioned
             {| secretmanagerpb.Name := "projects/p/secrets/s1" |} []).
    + discriminate.
    + discriminate.
    + reflexivity.
    + reflexivity.
  - apply Hdom.
Defined.


Lemma Put_rejects_invalid_arguments_witness :
  exists e,
    Put mem.client None [] demo.unprovisioned
    = (Ret (Err e), demo.unprovisioned) /\
    Code_of e = Some codes.InvalidArgument.
Proof.
  apply (Put_rejects_invalid_arguments mem.client None [] demo.unprovisioned).
  left. reflexivity.
Defined.

Lemma Access_rejects_blank_name_or_version_witness :
  exists e,
    Access mem.client
      (Some {| secret.Secret_ := Some {| secret.Name := "" |};
               secret.Version := "1" |}) demo.provisioned
    = (Ret (Err e), demo.provisioned) /\
    Code_of e = Some codes.InvalidArgument.
Proof.
  apply (Access_rejects_blank_name_or_version mem.client
           {| secret.Name := "" |} "1" demo.provisioned).
  left. reflexivity.
Defined.

Lemma Put_returns_trailing_segment_witness :
  exists sec req v,
    Some demo.dbpass = Some sec /\
    last (trace demo.after_put) = Some (CallAddSecretVersion req) /\
    AddSecretVersion mem.client req (remote demo.provisioned)
      = (Ok v, remote demo.after_put) /\
    put_response "db-pass" "1" =
      put_response (secret.Name sec)
        (trailing_segment "/" (secretmanagerpb.VersionName v)) /\
    is_trailing_segment "/" (secretmanagerpb.VersionName v) "1".
Proof.
  apply (Put_returns_trailing_segment mem.client (Some demo.dbpass)
           demo.s3cr3t demo.provisioned (put_response "db-pass" "1")
           demo.after_put).
  reflexivity.
Defined.

Lemma Put_then_Access_roundtrip_witness :
  exists sec w2,
    Some demo.dbpass = Some sec /\
    Access mem.client
      (Some (version_of (secret.Name sec) (put_response "db-pass" "1")))
      demo.after_put =
    (Ret (Ok {| secret.AccessSecretVersion_ :=
                  version_of (secret.Name sec) (put_response "db-pass" "1");
                secret.Value := demo.s3cr3t |}), w2) /\
    remote w2 = remote demo.after_put.
Proof.
  apply (Put_then_Access_roundtrip mem.client mem_client_addressed
           (Some demo.dbpass) demo.s3cr3t demo.provisioned
           (put_response "db-pass" "1") demo.after_put).
  reflexivity.
Defined.

Lemma cached_name_is_resolved_without_listing_witness :
  buildSecretVersionName mem.client
    (Some {| secret.Secret_ := Some demo.dbpass; secret.Version := "1" |})
    demo.after_put =
    (Ret (Ok ("projects/p/secrets/s1" +:+ "/versions/" +:+ "1")),
     demo.after_put) /\
  list_calls
    (trace (snd (Access mem.client
                   (Some {| secret.Secret_ := Some demo.dbpass;
                            secret.Version := "1" |}) demo.after_put)))
  = list_calls (trace demo.after_put) /\
  (forall val, val <> [] ->
     list_calls (trace (snd (Put mem.client (Some demo.dbpass) val
                               demo.after_put))) =
     S (list_calls (trace demo.after_put))).
Proof.
  apply (cached_name_is_resolved_without_listing mem.client demo.dbpass "1"
           "projects/p/secrets/s1" demo.after_put).
  - discriminate.
  - discriminate.
  - reflexivity.
Defined.

Lemma Access_unknown_secret_is_InvalidArgument_witness :
  exists e w',
    Access mem.client
      (Some {| secret.Secret_ := Some demo.dbpass; secret.Version := "1" |})
      demo.unprovisioned = (Ret (Err e), w') /\
    Code_of e = Some codes.InvalidArgument /\
    Cause_of e = Some (StatusError grpcCodes.NotFound "secret not found").
Proof.
  apply (Access_unknown_secret_is_InvalidArgument mem.client demo.dbpass "1"
           demo.unprovisioned).
  - discriminate.
  - discriminate.
  - reflexivity.
  - reflexivity.
Defined.

(** ** Further properties of the two operations *)

Section Further.
Variable client : SecretManagerClient.
Implicit Types (w : World client) (sec : secret.Secret).

(** X1. [Put] does not panic on its own account: whatever the arguments, a
    nil secret included, and whatever value or error the provider answers
    with, it returns a response or an error.  Provider answers are those of
    [result]: a value with a nil error, or an error. *)
Theorem Put_never_panics (osec : option secret.Secret) val w :
  exists r w', Put client osec val w = (Ret r, w').
Proof.
  destruct (validateNewSecret osec val) as [e|] eqn:Hv.
  - rewrite (Put_invalid client _ _ _ _ Hv). eauto.
  - apply validateNewSecret_ok in Hv as (sec & -> & Hn & Hval).
    rewrite (Put_run client _ _ _ Hn Hval). cbv zeta.
    destruct (Next _) as [r|[]]; eauto.
    destruct (AddSecretVersion client _ (remote w)) as [[v|e] b]; eauto.
Qed.

(** X2. The provider calls of one [Put]: at most two, at most one of them a
    listing, never a read of a version. *)
Theorem Put_provider_calls (osec : option secret.Secret) val w :
  exists added,
    trace (snd (Put client osec val w)) = (trace w ++ added)%list /\
    length added <= 2 /\ list_calls added <= 1 /\
    List.forallb (fun c => negb (is_access_call c)) added = true.
Proof.
  destruct (validateNewSecret osec val) as [e|] eqn:Hv.
  - rewrite (Put_invalid client _ _ _ _ Hv). exists [].
    simpl. rewrite app_nil_r. by_calls.
  - apply validateNewSecret_ok in Hv as (sec & -> & Hn & Hval).
    rewrite (Put_run client _ _ _ Hn Hval). cbv zeta.
    destruct (Next _) as [r|e].
    + destruct (AddSecretVersion client _ (remote w)) as [[v|e] b];
        simpl; rewrite <- app_assoc; eexists;
        (split; [reflexivity|]); by_calls.
    + destruct e; simpl; eexists;
        (split; [reflexivity|]); by_calls.
Qed.

(** X3. The provider calls of one [Access]: at most two, at most one of them
    a listing, never a write; the provider's state is left as it was. *)
Theorem Access_provider_calls (sv : option secret.SecretVersion) w :
  exists added,
    trace (snd (Access client sv w)) = (trace w ++ added)%list /\
    length added <= 2 /\ list_calls added <= 1 /\
    List.forallb (fun c => negb (is_add_call c)) added = true /\
    remote (snd (Access client sv w)) = remote w.
Proof.
  destruct sv as [[[sec|] ver]|].
  - rewrite Access_run, buildSecretVersionName_run. cbv zeta.
    destruct (Nat.eqb (String.length (secret.Name sec)) 0).
    { exists []. simpl. rewrite app_nil_r. by_calls. }
    destruct (Nat.eqb (String.length ver) 0).
    { exists []. simpl. rewrite app_nil_r. by_calls. }
    destruct (cache (self w) !! secret.Name sec).
    + destruct (AccessSecretVersion client _ _); simpl; eexists;
        (split; [reflexivity|]); by_calls.
    + destruct (Next _) as [r|e].
      * destruct (AccessSecretVersion client _ _); simpl;
          rewrite <- app_assoc; eexists;
          (split; [reflexivity|]); by_calls.
      * destruct e; simpl; eexists;
          (split; [reflexivity|]); by_calls.
  - exists []. simpl. rewrite app_nil_r. by_calls.
  - exists []. simpl. rewrite app_nil_r. by_calls.
Qed.

Lemma list_calls_app (t u : list Call) :
  list_calls (t ++ u) = list_calls t + list_calls u.
Proof. unfold list_calls. by rewrite List.filter_app, length_app. Qed.

Lemma step_calls (op : Op) w :
  exists added,
    trace (step client op w) = (trace w ++ added)%list /\
    length added <= 2 /\ list_calls added <= 1.
Proof.
  destruct op as [osec val|sv]; simpl.
  - destruct (Put_provider_calls osec val w) as (a & H1 & H2 & H3 & _).
    eauto.
  - destruct (Access_provider_calls sv w) as (a & H1 & H2 & H3 & _).
    eauto.
Qed.

(** X4. Over any sequence of operations the trace only grows, by at most
    two provider calls and at most one listing per operation. *)
Theorem run_provider_calls (ops : list Op) w :
  trace w `prefix_of` trace (run client ops w) /\
  length (trace (run client ops w)) <= length (trace w) + 2 * length ops /\
  list_calls (trace (run client ops w)) <=
    list_calls (trace w) + length ops.
Proof.
  revert w. induction ops as [|op ops IH]; intros w; simpl.
  - repeat split; [done|lia..].
  - destruct (step_calls op w) as (added & Ht & Hl & Hc).
    destruct (IH (step client op w)) as (Hp & Hlen & Hlist).
    rewrite Ht in Hp, Hlen, Hlist.
    rewrite length_app in Hlen. rewrite list_calls_app in Hlist.
    repeat split; [|lia..].
    etrans; [|exact Hp]. by apply prefix_app_r.
Qed.

(** X5. When the listing fails with a provider error, [Put] gives up with
    kind Internal wrapping that very error; the listing was its only call
    and service and provider are as before. *)
Theorem Put_listing_failure sec val w (e : error) :
  secret.Name sec <> EmptyString -> val <> [] ->
  Next (ListSecrets client (lookup_request (self w) (secret.Name sec))
          (remote w)) = Err e ->
  e <> IteratorDone ->
  Put client (Some sec) val w =
  (Ret (Err (PutErr (Some sec) codes.Internal
               "error ensuring secret container exists" e)),
   logged w (CallListSecrets (lookup_request (self w) (secret.Name sec)))).
Proof.
  intros Hn Hval Hnext He. rewrite (Put_run client _ _ _ Hn Hval).
  cbv zeta. rewrite Hnext. destruct e; try reflexivity. contradiction.
Qed.

(** X6. When the container is found but the write fails, [Put] reports kind
    Internal wrapping the provider's error, and the container it resolved is
    cached all the same. *)
Theorem Put_write_failure_still_caches sec val w r (e : error) b :
  secret.Name sec <> EmptyString -> val <> [] ->
  Next (ListSecrets client (lookup_request (self w) (secret.Name sec))
          (remote w)) = Ok r ->
  AddSecretVersion client (add_request r val) (remote w) = (Err e, b) ->
  exists w',
    Put client (Some sec) val w =
    (Ret (Err (PutErr (Some sec) codes.Internal
                 "failed to add new secret version" e)), w') /\
    cache (self w') !! secret.Name sec = Some (secretmanagerpb.Name r) /\
    remote w' = b.
Proof.
  intros Hn Hval Hnext Hadd. rewrite (Put_run client _ _ _ Hn Hval).
  cbv zeta. rewrite Hnext, Hadd. eexists. split; [reflexivity|].
  simpl. split; [apply lookup_insert_eq|reflexivity].
Qed.

(** X7. On the read path a provider error during the listing surfaces as
    kind InvalidArgument, wrapping that very error; nothing is cached. *)
Theorem Access_listing_failure sec ver w (e : error) :
  secret.Name sec <> EmptyString -> ver <> EmptyString ->
  cache (self w) !! secret.Name sec = None ->
  Next (ListSecrets client (lookup_request (self w) (secret.Name sec))
          (remote w)) = Err e ->
  e <> IteratorDone ->
  Access client (a_version sec ver) w =
  (Ret (Err (AccessErr (a_version sec ver) codes.InvalidArgument
               "invalid secret version" e)),
   logged w (CallListSecrets (lookup_request (self w) (secret.Name sec)))).
Proof.
  intros Hn Hv Hmiss Hnext He. unfold a_version.
  rewrite Access_run, buildSecretVersionName_run. cbv zeta.
  destruct (Nat.eqb (String.length (secret.Name sec)) 0) eqn:E1.
  { apply String_length_0 in E1. contradiction. }
  destruct (Nat.eqb (String.length ver) 0) eqn:E2.
  { apply String_length_0 in E2. contradiction. }
  rewrite Hmiss, Hnext. destruct e; try reflexivity. contradiction.
Qed.

(** X8. A cached name is trusted: when the read of
    [<cached>/versions/<version>] fails, [Access] reports kind Internal
    wrapping the provider's error without listing again, and the entry
    stays in the cache. *)
Theorem Access_read_failure_keeps_entry sec ver parent w (e : error) :
  secret.Name sec <> EmptyString -> ver <> EmptyString ->
  cache (self w) !! secret.Name sec = Some parent ->
  AccessSecretVersion client (access_request parent ver) (remote w)
    = Err e ->
  Access client (a_version sec ver) w =
  (Ret (Err (AccessErr (a_version sec ver) codes.Internal
               "failed to access secret version" e)),
   logged w (CallAccessSecretVersion (access_request parent ver))).
Proof.
  intros Hn Hv Hhit Hread. unfold a_version.
  rewrite Access_run, buildSecretVersionName_run. cbv zeta.
  destruct (Nat.eqb (String.length (secret.Name sec)) 0) eqn:E1.
  { apply String_length_0 in E1. contradiction. }
  destruct (Nat.eqb (String.length ver) 0) eqn:E2.
  { apply String_length_0 in E2. contradiction. }
  rewrite Hhit. simpl. unfold access_request in Hread.
  by rewrite Hread.
Qed.

(** X9. What a successful [Access] shows: the version was well formed, its
    secret is cached afterwards, the payload came from reading
    [<cached>/versions/<version>], the response hands back the caller's
    version as given with the provider's bytes, and the provider's state is
    as before. *)
Theorem Access_success (sv : option secret.SecretVersion) w resp w' :
  Access client sv w = (Ret (Ok resp), w') ->
  exists sec ver parent res,
    sv = a_version sec ver /\
    secret.Name sec <> EmptyString /\ ver <> EmptyString /\
    cache (self w') !! secret.Name sec = Some parent /\
    AccessSecretVersion client (access_request parent ver) (remote w)
      = Ok res /\
    last (trace w') =
      Some (CallAccessSecretVersion (access_request parent ver)) /\
    resp = {| secret.AccessSecretVersion_ :=
                {| secret.Secret_ := Some sec; secret.Version := ver |};
              secret.Value :=
                secretmanagerpb.GetData (secretmanagerpb.Payload res) |} /\
    remote w' = remote w.
Proof.
  intros H. destruct sv as [[[sec|] ver]|]; try discriminate.
  rewrite Access_run, buildSecretVersionName_run in H. cbv zeta in H.
  destruct (Nat.eqb (String.length (secret.Name sec)) 0) eqn:E1;
    [discriminate|].
  destruct (Nat.eqb (String.length ver) 0) eqn:E2; [discriminate|].
  assert (Hn : secret.Name sec <> EmptyString).
  { intros Hs. apply String_length_0 in Hs. congruence. }
  assert (Hv : ver <> EmptyString).
  { intros Hs. apply String_length_0 in Hs. congruence. }
  destruct (cache (self w) !! secret.Name sec) as [parent|] eqn:Hc.
  - destruct (AccessSecretVersion client _ (remote w)) as [res|e] eqn:Hr;
      [|discriminate].
    injection H as <- <-. exists sec, ver, parent, res. simpl.
    repeat split; try done. apply last_snoc.
  - destruct (Next _) as [r|e]; [|destruct e; discriminate].
    destruct (AccessSecretVersion client _ _) as [res|e] eqn:Hr;
      [|discriminate].
    injection H as <- <-.
    exists sec, ver, (secretmanagerpb.Name r), res. simpl.
    repeat split; try done; [apply lookup_insert_eq|apply last_snoc].
Qed.

(** X10. [Put] takes the first container the listing yields, whatever
    follows it: the value is written under that container, byte for byte,
    and the container is what the cache holds for the name afterwards. *)
Theorem Put_writes_under_first_listed sec val w x rest :
  secret.Name sec <> EmptyString -> val <> [] ->
  ListSecrets client (lookup_request (self w) (secret.Name sec)) (remote w)
    = IterItems (x :: rest) ->
  let w' := snd (Put client (Some sec) val w) in
  trace w' =
    (trace w ++
     [CallListSecrets (lookup_request (self w) (secret.Name sec));
      CallAddSecretVersion
        {| secretmanagerpb.AddParent := secretmanagerpb.Name x;
           secretmanagerpb.AddPayload :=
             Some {| secretmanagerpb.Data := val |} |}])%list /\
  cache (self w') !! secret.Name sec = Some (secretmanagerpb.Name x).
Proof.
  intros Hn Hval Hlist. cbv zeta.
  rewrite (Put_run client _ _ _ Hn Hval). cbv zeta. rewrite Hlist. simpl.
  destruct (AddSecretVersion client _ (remote w)) as [[v|e] b]; simpl;
    rewrite <- app_assoc; (split; [reflexivity|apply lookup_insert_eq]).
Qed.

(** The listings [Access] adds for a name the cache holds: none. *)
Lemma Access_cached_no_listing sec ver w :
  is_Some (cache (self w) !! secret.Name sec) ->
  list_calls (trace (snd (Access client (a_version sec ver) w))) =
  list_calls (trace w).
Proof.
  intros [parent Hhit]. unfold a_version.
  rewrite Access_run, buildSecretVersionName_run. cbv zeta.
  destruct (Nat.eqb (String.length (secret.Name sec)) 0); [done|].
  destruct (Nat.eqb (String.length ver) 0); [done|].
  rewrite Hhit.
  destruct (AccessSecretVersion client _ _); simpl;
    rewrite list_calls_snoc; simpl; lia.
Qed.

(** X11. Once a name is cached, no later [Access] of that name lists the
    provider, whatever operations ran in between. *)
Theorem cached_name_never_listed_again sec ver (ops : list Op) w :
  is_Some (cache (self w) !! secret.Name sec) ->
  list_calls
    (trace (snd (Access client (a_version sec ver) (run client ops w)))) =
  list_calls (trace (run client ops w)).
Proof.
  intros Hhit. apply Access_cached_no_listing.
  apply elem_of_dom. apply (run_dom client ops w). by apply elem_of_dom.
Qed.

Lemma step_empty_name (op : Op) w :
  cache (self w) !! EmptyString = None ->
  cache (self (step client op w)) !! EmptyString = None.
Proof.
  intros Hnone. rewrite step_cache.
  destruct (resolves op w) eqn:Hres; [|done].
  destruct op as [osec val|sv]; simpl in *.
  - destruct (validateNewSecret osec val) eqn:Hv; [discriminate|].
    apply validateNewSecret_ok in Hv as (sec & -> & Hn & _).
    pose proof (getSecret_cache client sec w) as H.
    destruct (getSecret client (Some sec) w) as [[[r|e]|msg] w'];
      simpl; rewrite H; [|done..].
    by rewrite lookup_insert_ne.
  - destruct sv as [[[sec|] ver]|]; try discriminate. simpl.
    destruct (Nat.eqb (String.length (secret.Name sec)) 0) eqn:E1;
      [discriminate|].
    assert (Hn : secret.Name sec <> EmptyString).
    { intros Hs. apply String_length_0 in Hs. congruence. }
    pose proof (getSecret_cache client sec w) as H.
    destruct (getSecret client (Some sec) w) as [[[r|e]|msg] w'];
      simpl; rewrite H; [|done..].
    by rewrite lookup_insert_ne.
Qed.

(** X12. The empty name is never cached: a cache without an entry for it
    has none after any sequence of operations. *)
Theorem empty_name_never_cached (ops : list Op) w :
  cache (self w) !! EmptyString = None ->
  cache (self (run client ops w)) !! EmptyString = None.
Proof.
  revert w. induction ops as [|op ops IH]; intros w H; simpl; [done|].
  apply IH. by apply step_empty_name.
Qed.

(** X13. [Put] never reads the cache: with another cache in place it
    returns the same result, makes the same calls and leaves the provider
    in the same state. *)
Theorem Put_ignores_cache (osec : option secret.Secret) val w
    (m : gmap string string) :
  fst (Put client osec val (with_cache w m)) = fst (Put client osec val w) /\
  trace (snd (Put client osec val (with_cache w m))) =
    trace (snd (Put client osec val w)) /\
  remote (snd (Put client osec val (with_cache w m))) =
    remote (snd (Put client osec val w)).
Proof.
  destruct (validateNewSecret osec val) as [e|] eqn:Hv.
  - by rewrite !(Put_invalid client _ _ _ _ Hv).
  - apply validateNewSecret_ok in Hv as (sec & -> & Hn & Hval).
    rewrite !(Put_run client _ _ _ Hn Hval). cbv zeta. simpl.
    change (lookup_request (set_cache (self w) m) (secret.Name sec))
      with (lookup_request (self w) (secret.Name sec)).
    destruct (Next _) as [r|[]]; try done.
    by destruct (AddSecretVersion client _ (remote w)) as [[v|e] b].
Qed.

(** *** The listing request and the scope it names *)

Lemma string_app_assoc (a b c : string) :
  (a +:+ b) +:+ c = a +:+ b +:+ c.
Proof.
  induction a as [|x a IH]; [reflexivity|].
  rewrite !append_cons. by rewrite IH.
Qed.

(** Two strings that agree up to their first separator. *)
Lemma first_sep_split sep a b x y :
  occurs sep a = false -> occurs sep b = false ->
  a +:+ String sep x = b +:+ String sep y -> a = b /\ x = y.
Proof.
  revert b. induction a as [|c a IH]; intros [|d b] Ha Hb H;
    rewrite ?append_cons in H; simpl in *.
  - injection H as ->. done.
  - injection H as <- _. rewrite Ascii.eqb_refl in Hb. discriminate.
  - injection H as -> _. rewrite Ascii.eqb_refl in Ha. discriminate.
  - injection H as -> H.
    destruct (Ascii.eqb d sep); [discriminate|].
    destruct (IH b Ha Hb H) as [-> ->]. done.
Qed.

Lemma getSecret_last_call sec w :
  last (trace (snd (getSecret client (Some sec) w))) =
  Some (CallListSecrets (lookup_request (self w) (secret.Name sec))).
Proof.
  rewrite getSecret_run. cbv zeta.
  destruct (Next _) as [r|[]]; simpl; apply last_snoc.
Qed.

Lemma filter_identifies_scope (n1 n2 st1 st2 : string) :
  (occurs " " n1 = false /\ occurs " " n2 = false) \/
  (occurs " " st1 = false /\ occurs " " st2 = false) ->
  n1 +:+ " AND labels.x-nitric-stack=" +:+ st1 =
  n2 +:+ " AND labels.x-nitric-stack=" +:+ st2 ->
  n1 = n2 /\ st1 = st2.
Proof.
  intros [[H1 H2]|[H1 H2]] H.
  - change (n1 +:+ String " " ("AND labels.x-nitric-stack=" +:+ st1) =
            n2 +:+ String " " ("AND labels.x-nitric-stack=" +:+ st2)) in H.
    destruct (first_sep_split _ _ _ _ _ H1 H2 H) as [-> Ht].
    split; [done|]. by apply (inj (String.append _)) in Ht.
  - assert (Hs : forall n st,
               n +:+ " AND labels.x-nitric-stack=" +:+ st =
               (n +:+ " AND") +:+
               String " " ("labels.x-nitric-stack=" +:+ st)).
    { intros n st. by rewrite string_app_assoc. }
    rewrite !Hs in H.
    apply sep_split_inj in H as [Hn Ht].
    + apply (inj (String.append _)) in Ht.
      apply (sep_split_inj " " n1 n2 "AND" "AND") in Hn; [|done..].
      by destruct Hn.
    + by rewrite occurs_app, H1.
    + by rewrite occurs_app, H2.
Qed.

(** X14. The listing [getSecret] sends names its scope: when the secret
    names, or else the stack names, are free of spaces, two lookups that
    send the same listing ask for the same secret name in the same stack
    of the same project. *)
Theorem listing_identifies_scope sec1 sec2 (w1 w2 : World client) :
  (occurs " " (secret.Name sec1) = false /\
   occurs " " (secret.Name sec2) = false) \/
  (occurs " " (stackName (self w1)) = false /\
   occurs " " (stackName (self w2)) = false) ->
  last (trace (snd (getSecret client (Some sec1) w1))) =
  last (trace (snd (getSecret client (Some sec2) w2))) ->
  secret.Name sec1 = secret.Name sec2 /\
  stackName (self w1) = stackName (self w2) /\
  projectId (self w1) = projectId (self w2).
Proof.
  intros Hfree H. rewrite !getSecret_last_call in H.
  injection H as Hp Hf. unfold getParentName in Hp.
  apply (inj (String.append _)) in Hp.
  apply (inj (String.append _)) in Hf.
  destruct (filter_identifies_scope _ _ _ _ Hfree Hf) as [Hn Hs]. done.
Qed.

(** X15. Without that proviso the scope is not named: a secret name that
    carries a stack clause, looked up in one stack, sends the very listing
    of the plain name looked up in the stack with the clause appended. *)
Theorem listing_scope_can_be_smuggled (p name stack extra : string)
    (m1 m2 : gmap string string) (b1 b2 : backend client)
    (t1 t2 : list Call) :
  last (trace (snd (getSecret client
    (Some {| secret.Name :=
               name +:+ " AND labels.x-nitric-stack=" +:+ stack |})
    (Build_World client
       {| projectId := p; stackName := extra; cache := m1 |} b1 t1)))) =
  last (trace (snd (getSecret client
    (Some {| secret.Name := name |})
    (Build_World client
       {| projectId := p;
          stackName := stack +:+ " AND labels.x-nitric-stack=" +:+ extra;
          cache := m2 |} b2 t2)))).
Proof.
  rewrite !getSecret_last_call. simpl.
  unfold lookup_request, getParentName. simpl. do 3 f_equal.
  by rewrite !string_app_assoc.
Qed.

(** *** Two writes to one secret *)

(** A read through the cache that the provider answers. *)
Lemma Access_cached_read sec ver parent w res :
  secret.Name sec <> EmptyString -> ver <> EmptyString ->
  cache (self w) !! secret.Name sec = Some parent ->
  AccessSecretVersion client (access_request parent ver) (remote w)
    = Ok res ->
  Access client (a_version sec ver) w =
  (Ret (Ok {| secret.AccessSecretVersion_ :=
                {| secret.Secret_ := Some sec; secret.Version := ver |};
              secret.Value :=
                secretmanagerpb.GetData (secretmanagerpb.Payload res) |}),
   logged w (CallAccessSecretVersion (access_request parent ver))).
Proof.
  intros Hn Hv Hhit Hread. unfold a_version.
  rewrite Access_run, buildSecretVersionName_run. cbv zeta.
  destruct (Nat.eqb (String.length (secret.Name sec)) 0) eqn:E1.
  { apply String_length_0 in E1. contradiction. }
  destruct (Nat.eqb (String.length ver) 0) eqn:E2.
  { apply String_length_0 in E2. contradiction. }
  rewrite Hhit. simpl. unfold access_request in Hread.
  by rewrite Hread.
Qed.

(** Project and stack of the service are those it was built with. *)
Lemma step_keeps_scope (op : Op) w :
  projectId (self (step client op w)) = projectId (self w) /\
  stackName (self (step client op w)) = stackName (self w).
Proof.
  destruct op as [osec val|sv]; simpl.
  - destruct (validateNewSecret osec val) as [e|] eqn:Hv.
    + by rewrite (Put_invalid client _ _ _ _ Hv).
    + apply validateNewSecret_ok in Hv as (sec & -> & Hn & Hval).
      rewrite (Put_run client _ _ _ Hn Hval). cbv zeta.
      destruct (Next _) as [r|[]]; try done.
      by destruct (AddSecretVersion client _ (remote w)) as [[v|e] b].
  - destruct sv as [[[sec|] ver]|]; try done.
    rewrite Access_run, buildSecretVersionName_run. cbv zeta.
    destruct (Nat.eqb (String.length (secret.Name sec)) 0); [done|].
    destruct (Nat.eqb (String.length ver) 0); [done|].
    destruct (cache (self w) !! secret.Name sec).
    + by destruct (AccessSecretVersion client _ _).
    + destruct (Next _) as [r|[]]; try done.
      by destruct (AccessSecretVersion client _ _).
Qed.

Lemma addressed_version (HA : Addressed client) req b v b' :
  AddSecretVersion client req b = (Ok v, b') ->
  let id := trailing_segment "/" (secretmanagerpb.VersionName v) in
  secretmanagerpb.VersionName v =
    secretmanagerpb.AddParent req +:+ "/versions/" +:+ id /\
  id <> EmptyString.
Proof.
  intros Hadd. cbv zeta.
  destruct (version_named _ HA _ _ _ _ Hadd) as (id & Hname & Hid & Hslash).
  assert (Hseg : trailing_segment "/" (secretmanagerpb.VersionName v) = id).
  { rewrite Hname, versions_suffix_split. by apply trailing_segment_app. }
  by rewrite Hseg.
Qed.

(** X16. Two writes to one secret.  Over a provider that honours the
    addressing contract and keeps what it holds, started in a good state,
    two successful [Put]s for the same secret return different versions,
    and after the second each version reads back the value that was put
    under it. *)
Theorem Put_twice_distinct_and_retrievable
    (good : backend client -> Prop)
    (HA : Addressed client) (HD : Durable client good)
    sec val1 val2 w resp1 w1 resp2 w2 :
  good (remote w) ->
  Put client (Some sec) val1 w = (Ret (Ok resp1), w1) ->
  Put client (Some sec) val2 w1 = (Ret (Ok resp2), w2) ->
  secret.Version (secret.PutSecretVersion resp1) <>
  secret.Version (secret.PutSecretVersion resp2) /\
  (exists w3,
     Access client (Some (version_of (secret.Name sec) resp1)) w2 =
     (Ret (Ok {| secret.AccessSecretVersion_ :=
                   version_of (secret.Name sec) resp1;
                 secret.Value := val1 |}), w3)) /\
  (exists w3,
     Access client (Some (version_of (secret.Name sec) resp2)) w2 =
     (Ret (Ok {| secret.AccessSecretVersion_ :=
                   version_of (secret.Name sec) resp2;
                 secret.Value := val2 |}), w3)).
Proof.
  intros Hgood H1 H2.
  pose proof (step_keeps_scope (OpPut (Some sec) val1) w) as [Hp Hs].
  simpl in Hp, Hs. rewrite H1 in Hp, Hs. simpl in Hp, Hs.
  destruct (Put_then_Access_roundtrip client HA _ _ _ _ _ H2)
    as (sec2 & w3 & [= <-] & Hacc2 & _).
  apply Put_ok_inv in H1
    as (s1 & r1 & v1 & [= <-] & Hn & _ & Hl1 & Hadd1 & -> & Hc1 & _).
  apply Put_ok_inv in H2
    as (s2 & r2 & v2 & [= <-] & _ & _ & Hl2 & Hadd2 & -> & Hc2 & _).
  assert (Hreq : lookup_request (self w1) (secret.Name sec) =
                 lookup_request (self w) (secret.Name sec)).
  { unfold lookup_request, getParentName. by rewrite Hp, Hs. }
  rewrite Hreq, (listing_stable _ _ HD _ _ _ _ _ Hadd1), Hl1 in Hl2.
  injection Hl2 as <-.
  destruct (addressed_version HA _ _ _ _ Hadd1) as [Hname1 Hid1].
  destruct (addressed_version HA _ _ _ _ Hadd2) as [Hname2 Hid2].
  simpl in Hname1, Hname2.
  destruct (read_after_write _ HA _ _ _ _ Hadd1) as (res1 & Hres1 & Hdata1).
  simpl in Hdata1.
  pose proof (good_kept _ _ HD _ _ _ _ Hgood Hadd1) as Hgood1.
  destruct (version_fresh _ _ HD _ _ _ _ Hgood1 Hadd2) as (e & Hfresh).
  split; [|split; [|eauto]].
  - simpl. intros Heq.
    assert (Hsame : secretmanagerpb.VersionName v2 =
                    secretmanagerpb.VersionName v1).
    { etrans; [exact Hname2|]. rewrite <- Heq. symmetry. exact Hname1. }
    rewrite Hsame, Hres1 in Hfresh. discriminate.
  - pose proof (version_kept _ _ HD _ _ _ _ _ _ Hgood1 Hadd2 Hres1) as Hk.
    rewrite Hname1 in Hk.
    assert (Hhit : cache (self w2) !! secret.Name sec =
                   Some (secretmanagerpb.Name r1)).
    { rewrite Hc2. apply lookup_insert_eq. }
    pose proof (Access_cached_read {| secret.Name := secret.Name sec |}
                  _ _ w2 res1 Hn Hid1 Hhit Hk) as Hread.
    unfold a_version in Hread. eexists.
    unfold version_of, put_response. simpl.
    rewrite Hread, Hdata1. reflexivity.
Qed.

End Further.

(** ** The in-memory provider keeps what it holds *)

Lemma add_version_names parent data st n st' :
  mem.add_version parent data st = Some (n, st') ->
  List.map mem.name st' = List.map mem.name st.
Proof.
  revert n st'. induction st as [|c rest IH]; intros n st'; simpl;
    [discriminate|].
  destruct (String.eqb (mem.name c) parent).
  - by intros [= <- <-].
  - destruct (mem.add_version parent data rest) as [[m rest']|];
      [|discriminate].
    intros [= <- <-]. simpl. by rewrite (IH _ _ eq_refl).
Qed.

Lemma add_version_listing parent data st n st' req :
  mem.add_version parent data st = Some (n, st') ->
  mem.list_secrets req st' = mem.list_secrets req st.
Proof.
  unfold mem.list_secrets. intros H. f_equal.
  revert n st' H. induction st as [|c rest IH]; intros n st'; simpl;
    [discriminate|].
  destruct (String.eqb (mem.name c) parent).
  - intros [= <- <-]. simpl.
    change (mem.matches req (mem.push c data)) with (mem.matches req c).
    by destruct (mem.matches req c).
  - destruct (mem.add_version parent data rest) as [[m rest']|];
      [|discriminate].
    intros [= <- <-]. simpl.
    destruct (mem.matches req c); simpl; by rewrite (IH _ _ eq_refl).
Qed.

Lemma find_version_app_l full p i vs l x :
  mem.find_version full p i vs = Some x ->
  mem.find_version full p i (vs ++ l) = Some x.
Proof.
  revert i. induction vs as [|v vs IH]; intros i; simpl; [discriminate|].
  destruct (String.eqb full (mem.version_name p (S i))); [done|apply IH].
Qed.

Lemma find_version_Some full p i vs x :
  mem.find_version full p i vs = Some x ->
  exists k, full = mem.version_name p k /\ i < k <= i + length vs.
Proof.
  revert i. induction vs as [|v vs IH]; intros i; simpl; [discriminate|].
  destruct (String.eqb_spec full (mem.version_name p (S i))) as [E|_].
  - intros _. exists (S i). split; [done|lia].
  - intros H. destruct (IH _ H) as (k & Hk & Hb). exists k. split; [done|lia].
Qed.

Lemma access_version_Some full st x :
  mem.access_version full st = Some x ->
  exists c k, c ∈ st /\ full = mem.version_name (mem.name c) k.
Proof.
  induction st as [|c rest IH]; simpl; [discriminate|].
  destruct (mem.find_version full (mem.name c) 0 (mem.versions c)) eqn:F.
  - intros _. destruct (find_version_Some _ _ _ _ _ F) as (k & Hk & _).
    exists c, k. split; [left|done].
  - intros H. destruct (IH H) as (c' & k & Hin & Hk).
    exists c', k. split; [by right|done].
Qed.

(** No version of [p] is stored under a container with another name. *)
Lemma access_version_other p n st :
  p ∉ List.map mem.name st ->
  mem.access_version (mem.version_name p n) st = None.
Proof.
  intros Hnot.
  destruct (mem.access_version (mem.version_name p n) st) eqn:H; [|done].
  destruct (access_version_Some _ _ _ H) as (c & k & Hin & Hk).
  apply version_name_inj in Hk as [-> _].
  destruct Hnot. apply list_elem_of_In, in_map, list_elem_of_In, Hin.
Qed.

Lemma add_version_keeps parent data st n st' full x :
  unique_names st ->
  mem.add_version parent data st = Some (n, st') ->
  mem.access_version full st = Some x ->
  mem.access_version full st' = Some x.
Proof.
  unfold unique_names. revert n st'.
  induction st as [|c rest IH]; intros n st' Hnd; simpl; [discriminate|].
  simpl in Hnd. apply NoDup_cons in Hnd as [Hc Hnd].
  destruct (String.eqb_spec (mem.name c) parent) as [E|E].
  - intros [= <- <-]. simpl.
    destruct (mem.find_version full (mem.name c) 0 (mem.versions c)) eqn:F.
    + intros [= ->]. by rewrite (find_version_app_l _ _ _ _ _ _ F).
    + intros H.
      destruct (mem.find_version full (mem.name c) 0
                  (mem.versions c ++ [data])) eqn:F'; [|done].
      destruct (find_version_Some _ _ _ _ _ F') as (k & -> & _).
      by rewrite (access_version_other _ _ _ Hc) in H.
  - destruct (mem.add_version parent data rest) as [[m rest']|] eqn:Hadd;
      [|discriminate].
    intros [= <- <-]. simpl.
    destruct (mem.find_version full (mem.name c) 0 (mem.versions c));
      [done|].
    by apply (IH _ _ Hnd eq_refl).
Qed.

Lemma add_version_fresh parent data st n st' :
  unique_names st ->
  mem.add_version parent data st = Some (n, st') ->
  mem.access_version (mem.version_name parent n) st = None.
Proof.
  unfold unique_names. revert n st'.
  induction st as [|c rest IH]; intros n st' Hnd; simpl; [discriminate|].
  simpl in Hnd. apply NoDup_cons in Hnd as [Hc Hnd].
  destruct (String.eqb_spec (mem.name c) parent) as [E|E].
  - intros [= <- <-].
    destruct (mem.find_version _ (mem.name c) 0 (mem.versions c)) eqn:F.
    + destruct (find_version_Some _ _ _ _ _ F) as (k & Hk & Hb).
      apply version_name_inj in Hk as [_ <-]. lia.
    + rewrite <- E. by apply access_version_other.
  - destruct (mem.add_version parent data rest) as [[m rest']|] eqn:Hadd;
      [|discriminate].
    intros [= <- <-].
    destruct (mem.find_version _ (mem.name c) 0 (mem.versions c)) eqn:F.
    + destruct (find_version_Some _ _ _ _ _ F) as (k & Hk & _).
      apply version_name_inj in Hk as [-> _]. done.
    + by apply (IH _ _ Hnd eq_refl).
Qed.

Lemma mem_client_durable : Durable mem.client unique_names.
Proof.
  split; simpl; unfold mem.add_secret_version.
  - intros req b r b' Hgood H.
    destruct (mem.add_version _ _ b) as [[n st']|] eqn:Hadd;
      injection H as <- <-; [|done].
    unfold unique_names. by rewrite (add_version_names _ _ _ _ _ Hadd).
  - intros req b r b' lreq H.
    destruct (mem.add_version _ _ b) as [[n st']|] eqn:Hadd;
      injection H as <- <-; [|done].
    by apply (add_version_listing _ _ _ _ _ _ Hadd).
  - intros req b r b' areq x Hgood H.
    destruct (mem.add_version _ _ b) as [[n st']|] eqn:Hadd;
      injection H as <- <-; [|done].
    unfold mem.access_secret_version.
    destruct (mem.access_version _ b) as [v|] eqn:Hacc; [|discriminate].
    by rewrite (add_version_keeps _ _ _ _ _ _ _ Hgood Hadd Hacc).
  - intros req b v b' Hgood H.
    destruct (mem.add_version _ _ b) as [[n st']|] eqn:Hadd;
      [|discriminate].
    injection H as <- <-. simpl. unfold mem.access_secret_version. simpl.
    rewrite (add_version_fresh _ _ _ _ _ Hgood Hadd). eauto.
Qed.

(** ** The kinds of error a caller can see *)

Section Kinds.
Variable client : SecretManagerClient.
Implicit Types (w : World client) (sec : secret.Secret).

(** X17. The errors of [Put].  Kind InvalidArgument is given only when
    validation failed: it wraps the validation error and nothing was
    touched.  Every other error is of kind Internal and comes after the
    listing, for arguments that passed validation. *)
Theorem Put_error_kinds (osec : option secret.Secret) val w (e : error) w' :
  Put client osec val w = (Ret (Err e), w') ->
  (Code_of e = Some codes.InvalidArgument /\
   Cause_of e = validateNewSecret osec val /\ w' = w) \/
  (Code_of e = Some codes.Internal /\
   validateNewSecret osec val = None /\
   list_calls (trace w') = S (list_calls (trace w))).
Proof.
  intros H. destruct (validateNewSecret osec val) as [err|] eqn:Hv.
  - rewrite (Put_invalid client _ _ _ _ Hv) in H.
    injection H as <- <-. by left.
  - right. pose proof Hv as Hok.
    apply validateNewSecret_ok in Hok as (sec & -> & Hn & Hval).
    pose proof (Put_lists_once client sec val w Hn Hval) as Hlist.
    rewrite H in Hlist. simpl in Hlist.
    rewrite (Put_run client _ _ _ Hn Hval) in H. cbv zeta in H.
    destruct (Next _) as [r|err].
    + destruct (AddSecretVersion client _ (remote w)) as [[v|err] b];
        [discriminate|].
      by injection H as <- <-.
    + destruct err; by injection H as <- <-.
Qed.

(** X18. The errors of [Access].  Kind Internal is given only when the
    container was resolved and the provider refused the read of
    [<container>/versions/<version>]: it wraps the provider's error.  Every
    other error is of kind InvalidArgument and no read of a version was
    attempted. *)
Theorem Access_error_kinds (sv : option secret.SecretVersion) w
    (e : error) w' :
  Access client sv w = (Ret (Err e), w') ->
  (Code_of e = Some codes.InvalidArgument /\
   List.filter is_access_call (trace w') =
   List.filter is_access_call (trace w)) \/
  (Code_of e = Some codes.Internal /\
   exists sec ver parent cause,
     sv = a_version sec ver /\
     cache (self w') !! secret.Name sec = Some parent /\
     AccessSecretVersion client (access_request parent ver) (remote w)
       = Err cause /\
     Cause_of e = Some cause).
Proof.
  intros H. destruct sv as [[[sec|] ver]|]; try discriminate.
  rewrite Access_run, buildSecretVersionName_run in H. cbv zeta in H.
  destruct (Nat.eqb (String.length (secret.Name sec)) 0).
  { injection H as <- <-. by left. }
  destruct (Nat.eqb (String.length ver) 0).
  { injection H as <- <-. by left. }
  destruct (cache (self w) !! secret.Name sec) as [parent|] eqn:Hc.
  - destruct (AccessSecretVersion client _ (remote w)) as [res|err] eqn:Hr;
      [discriminate|].
    injection H as <- <-. right. split; [done|].
    by exists sec, ver, parent, err.
  - destruct (Next _) as [r|err].
    + destruct (AccessSecretVersion client _ _) as [res|err] eqn:Hr;
        [discriminate|].
      injection H as <- <-. right. split; [done|].
      exists sec, ver, (secretmanagerpb.Name r), err. simpl.
      repeat split; try done. apply lookup_insert_eq.
    + left. destruct err; injection H as <- <-; simpl;
        (split; [done|]); rewrite List.filter_app; simpl;
        by rewrite app_nil_r.
Qed.

End Kinds.

(** ** Instances of the further conditional theorems *)

Lemma Put_listing_failure_witness :
  Put faulty.offline (Some demo.dbpass) demo.s3cr3t faulty.offline_world =
  (Ret (Err (PutErr (Some demo.dbpass) codes.Internal
               "error ensuring secret container exists"
               faulty.unavailable)),
   logged faulty.offline_world
     (CallListSecrets
        (lookup_request (self faulty.offline_world) "db-pass"))).
Proof.
  apply (Put_listing_failure faulty.offline demo.dbpass demo.s3cr3t
           faulty.offline_world faulty.unavailable).
  - discriminate.
  - discriminate.
  - reflexivity.
  - discriminate.
Defined.

Lemma Put_write_failure_still_caches_witness :
  exists w',
    Put (faulty.read_only mem.client) (Some demo.dbpass) demo.s3cr3t
      faulty.protected_world =
    (Ret (Err (PutErr (Some demo.dbpass) codes.Internal
                 "failed to add new secret version" faulty.denied)), w') /\
    cache (self w') !! "db-pass" = Some "projects/p/secrets/s1" /\
    remote w' = [demo.container].
Proof.
  apply (Put_write_failure_still_caches (faulty.read_only mem.client)
           demo.dbpass demo.s3cr3t faulty.protected_world
           {| secretmanagerpb.Name := "projects/p/secrets/s1" |}
           faulty.denied [demo.container]).
  - discriminate.
  - discriminate.
  - reflexivity.
  - reflexivity.
Defined.

Lemma Access_listing_failure_witness :
  Access faulty.offline (a_version demo.dbpass "1") faulty.offline_world =
  (Ret (Err (AccessErr (a_version demo.dbpass "1") codes.InvalidArgument
               "invalid secret version" faulty.unavailable)),
   logged faulty.offline_world
     (CallListSecrets
        (lookup_request (self faulty.offline_world) "db-pass"))).
Proof.
  apply (Access_listing_failure faulty.offline demo.dbpass "1"
           faulty.offline_world faulty.unavailable).
  - discriminate.
  - discriminate.
  - reflexivity.
  - reflexivity.
  - discriminate.
Defined.

Lemma Access_read_failure_keeps_entry_witness :
  Access mem.client (a_version demo.dbpass "7") demo.after_put =
  (Ret (Err (AccessErr (a_version demo.dbpass "7") codes.Internal
               "failed to access secret version"
               (StatusError grpcCodes.NotFound
                  "secret version not found"))),
   logged demo.after_put
     (CallAccessSecretVersion
        (access_request "projects/p/secrets/s1" "7"))).
Proof.
  apply (Access_read_failure_keeps_entry mem.client demo.dbpass "7"
           "projects/p/secrets/s1" demo.after_put).
  - discriminate.
  - discriminate.
  - reflexivity.
  - reflexivity.
Defined.

Lemma Access_success_witness :
  exists sec ver parent res,
    a_version demo.dbpass "1" = a_version sec ver /\
    secret.Name sec <> EmptyString /\ ver <> EmptyString /\
    cache (self (snd (Access mem.client (a_version demo.dbpass "1")
                        demo.after_put))) !! secret.Name sec
      = Some parent /\
    AccessSecretVersion mem.client (access_request parent ver)
      (remote demo.after_put) = Ok res /\
    last (trace (snd (Access mem.client (a_version demo.dbpass "1")
                        demo.after_put))) =
      Some (CallAccessSecretVersion (access_request parent ver)) /\
    {| secret.AccessSecretVersion_ :=
         {| secret.Secret_ := Some demo.dbpass; secret.Version := "1" |};
       secret.Value := demo.s3cr3t |} =
    {| secret.AccessSecretVersion_ :=
         {| secret.Secret_ := Some sec; secret.Version := ver |};
       secret.Value :=
         secretmanagerpb.GetData (secretmanagerpb.Payload res) |} /\
    remote (snd (Access mem.client (a_version demo.dbpass "1")
                   demo.after_put)) = remote demo.after_put.
Proof.
  apply (Access_success mem.client (a_version demo.dbpass "1")
           demo.after_put).
  reflexivity.
Defined.

Lemma Put_writes_under_first_listed_witness :
  trace (snd (Put mem.client (Some demo.dbpass) demo.s3cr3t
                (mem.fresh "p" "dev" [demo.container; demo.container]))) =
    [CallListSecrets
       (lookup_request (self demo.provisioned) "db-pass");
     CallAddSecretVersion
       {| secretmanagerpb.AddParent := "projects/p/secrets/s1";
          secretmanagerpb.AddPayload :=
            Some {| secretmanagerpb.Data := demo.s3cr3t |} |}] /\
  cache (self (snd (Put mem.client (Some demo.dbpass) demo.s3cr3t
                      (mem.fresh "p" "dev"
                         [demo.container; demo.container]))))
    !! "db-pass" = Some "projects/p/secrets/s1".
Proof.
  apply (Put_writes_under_first_listed mem.client demo.dbpass demo.s3cr3t
           (mem.fresh "p" "dev" [demo.container; demo.container])
           {| secretmanagerpb.Name := "projects/p/secrets/s1" |}
           [{| secretmanagerpb.Name := "projects/p/secrets/s1" |}]).
  - discriminate.
  - discriminate.
  - reflexivity.
Defined.

Lemma cached_name_never_listed_again_witness :
  list_calls
    (trace (snd (Access mem.client (a_version demo.dbpass "1")
                   (run mem.client
                      [OpPut (Some demo.dbpass) demo.s3cr3t;
                       OpAccess (a_version demo.dbpass "2")]
                      demo.after_put)))) =
  list_calls
    (trace (run mem.client
              [OpPut (Some demo.dbpass) demo.s3cr3t;
               OpAccess (a_version demo.dbpass "2")] demo.after_put)).
Proof.
  apply (cached_name_never_listed_again mem.client demo.dbpass "1"
           [OpPut (Some demo.dbpass) demo.s3cr3t;
            OpAccess (a_version demo.dbpass "2")] demo.after_put).
  exists "projects/p/secrets/s1". reflexivity.
Defined.

Lemma empty_name_never_cached_witness :
  cache (self (run mem.client
                 [OpPut (Some demo.dbpass) demo.s3cr3t;
                  OpAccess (a_version {| secret.Name := "" |} "1")]
                 demo.provisioned)) !! EmptyString = None.
Proof.
  apply (empty_name_never_cached mem.client
           [OpPut (Some demo.dbpass) demo.s3cr3t;
            OpAccess (a_version {| secret.Name := "" |} "1")]
           demo.provisioned).
  reflexivity.
Defined.

Lemma listing_identifies_scope_witness :
  secret.Name demo.dbpass = secret.Name demo.dbpass /\
  stackName (self demo.provisioned) = stackName (self demo.after_put) /\
  projectId (self demo.provisioned) = projectId (self demo.after_put).
Proof.
  apply (listing_identifies_scope mem.client demo.dbpass demo.dbpass
           demo.provisioned demo.after_put).
  - left. split; reflexivity.
  - reflexivity.
Defined.

Lemma Put_twice_distinct_and_retrievable_witness :
  secret.Version (secret.PutSecretVersion (put_response "db-pass" "1")) <>
  secret.Version (secret.PutSecretVersion (put_response "db-pass" "2")) /\
  (exists w3,
     Access mem.client
       (Some (version_of "db-pass" (put_response "db-pass" "1")))
       (snd (Put mem.client (Some demo.dbpass) (list_byte_of_string "n3w")
               demo.after_put)) =
     (Ret (Ok {| secret.AccessSecretVersion_ :=
                   version_of "db-pass" (put_response "db-pass" "1");
                 secret.Value := demo.s3cr3t |}), w3)) /\
  (exists w3,
     Access mem.client
       (Some (version_of "db-pass" (put_response "db-pass" "2")))
       (snd (Put mem.client (Some demo.dbpass) (list_byte_of_string "n3w")
               demo.after_put)) =
     (Ret (Ok {| secret.AccessSecretVersion_ :=
                   version_of "db-pass" (put_response "db-pass" "2");
                 secret.Value := list_byte_of_string "n3w" |}), w3)).
Proof.
  apply (Put_twice_distinct_and_retrievable mem.client unique_names
           mem_client_addressed mem_client_durable
           demo.dbpass demo.s3cr3t (list_byte_of_string "n3w")
           demo.provisioned (put_response "db-pass" "1") demo.after_put
           (put_response "db-pass" "2")
           (snd (Put mem.client (Some demo.dbpass)
                   (list_byte_of_string "n3w") demo.after_put))).
  - unfold unique_names. simpl. apply NoDup_singleton.
  - reflexivity.
  - reflexivity.
Defined.

Lemma Put_error_kinds_witness :
  exists e w',
    Put mem.client (Some demo.dbpass) demo.s3cr3t demo.unprovisioned
      = (Ret (Err e), w') /\
    ((Code_of e = Some codes.InvalidArgument /\
      Cause_of e = validateNewSecret (Some demo.dbpass) demo.s3cr3t /\
      w' = demo.unprovisioned) \/
     (Code_of e = Some codes.Internal /\
      validateNewSecret (Some demo.dbpass) demo.s3cr3t = None /\
      list_calls (trace w') = S (list_calls (trace demo.unprovisioned)))).
Proof.
  eexists. eexists. split; [reflexivity|].
  apply (Put_error_kinds mem.client (Some demo.dbpass) demo.s3cr3t
           demo.unprovisioned).
  reflexivity.
Defined.

Lemma Access_error_kinds_witness :
  exists e w',
    Access mem.client (a_version demo.dbpass "7") demo.after_put
      = (Ret (Err e), w') /\
    ((Code_of e = Some codes.InvalidArgument /\
      List.filter is_access_call (trace w') =
      List.filter is_access_call (trace demo.after_put)) \/
     (Code_of e = Some codes.Internal /\
      exists sec ver parent cause,
        a_version demo.dbpass "7" = a_version sec ver /\
        cache (self w') !! secret.Name sec = Some parent /\
        AccessSecretVersion mem.client (access_request parent ver)
          (remote demo.after_put) = Err cause /\
        Cause_of e = Some cause)).
Proof.
  eexists. eexists. split; [reflexivity|].
  apply (Access_error_kinds mem.client (a_version demo.dbpass "7")
           demo.after_put).
  reflexivity.
Defined.
